(** * Compliance minimisation: orchestration layer of the plane-stress
      topology optimisation problem

    Shallow embedding of
    [src/plane_stress/optproblems/archive/compliance_minimization.py]
    (class [ComplianceMinimization]).

    Conventions of the embedding.
    - NumPy [float64] values are idealised as real numbers ([R]); integer
      arrays hold [Z].  One-dimensional arrays are lists, two-dimensional
      arrays are lists of rows (rectangular, at least one column).
    - The compiled finite-element module [plane_stress] and the SciPy
      routines ([KDTree.query_ball_tree], [linalg.dsolve.factorized]) are
      not part of the Python source: they are the fields of the two
      interfaces [PlaneStress] and [SciPy].  A kernel that fills a buffer
      in place is a function from the buffer's old content to its new one.
    - A Python exception is the outcome [Raise]; the attributes of [self]
      are the record [Self]; every call that leaves the Python file is
      appended to a log, so that "which kernel was called, with which
      arguments, how often" is a statement about the log. *)

From Stdlib Require Import Reals Lra ZArith Lia.
From stdpp Require Import base option list gmap.

(** ** Arrays *)

Abbreviation ivec := (list Z).
Abbreviation imat := (list (list Z)).
Abbreviation rvec := (list R).
Abbreviation rmat := (list (list R)).

Inductive exn := ValueError | IndexError | AttributeError | RuntimeError.

Inductive outcome (A : Type) :=
| Ret (a : A)
| Raise (e : exn).
Arguments Ret {A} a.
Arguments Raise {A} e.

Definition outcome_bind {A B} (o : outcome A) (k : A → outcome B) : outcome B :=
  match o with Ret a => k a | Raise e => Raise e end.

(** [a.T] for a two-dimensional array. *)
Fixpoint T {A} (m : list (list A)) : list (list A) :=
  match m with
  | [] => []
  | [r] => (λ a, [a]) <$> r
  | r :: m' => zip_with cons r (T m')
  end.

(** [np.max(a)]: the largest entry of the flattened array; an empty array
    raises [ValueError]. *)
Definition np_max (a : imat) : outcome Z :=
  match concat a with
  | [] => Raise ValueError
  | z :: l => Ret (foldl Z.max z l)
  end.

(** [np.zeros(n)], [np.ones(n)]: a negative dimension raises [ValueError]. *)
Definition np_full {A} (v : A) (n : Z) : outcome (list A) :=
  if decide (n < 0)%Z then Raise ValueError else Ret (replicate (Z.to_nat n) v).
Definition np_zeros_int (n : Z) : outcome ivec := np_full 0%Z n.
Definition np_ones (n : Z) : outcome rvec := np_full 1%R n.

(** [np.zeros(x.shape)] for an existing array [x]. *)
Definition zeros_like {A} (x : list A) : rvec := replicate (length x) 0%R.

(** [a[-1]]. *)
Definition index_last {A} (a : list A) : outcome A :=
  match last a with Some v => Ret v | None => Raise IndexError end.

(** [buf[:] = v]: [v] must have the shape of [buf], or one element, which
    is then broadcast; anything else raises [ValueError]. *)
Definition assign_all {A} (buf v : list A) : outcome (list A) :=
  if decide (length v = length buf) then Ret v
  else match v with
       | [a] => Ret (replicate (length buf) a)
       | _ => Raise ValueError
       end.

Definition Rsum (w : rvec) : R := foldr Rplus 0%R w.

Definition vsub (a b : rvec) : rvec := zip_with Rminus a b.
Definition vdot (a b : rvec) : R := Rsum (zip_with Rmult a b).

(** [np.dot(a, b)] of two vectors; different lengths raise [ValueError]. *)
Definition np_dot (a b : rvec) : outcome R :=
  if decide (length a = length b) then Ret (vdot a b) else Raise ValueError.

(** ** Sparse matrices *)

(** The filter matrix: the shape and, per row, the stored entries
    (column ↦ value).  The list-of-lists and the compressed-row formats
    of SciPy store the same entries, so [tocsr] does not change the
    value. *)
Record spmatrix := SpMatrix {
  sp_shape : nat * nat;
  sp_rows : list (gmap nat R)
}.

Definition lil_matrix (m n : Z) : spmatrix :=
  SpMatrix (Z.to_nat m, Z.to_nat n) (replicate (Z.to_nat m) ∅).

Definition tocsr (A : spmatrix) : spmatrix := A.

(** [A[i, j]]: an entry that is not stored is zero. *)
Definition sp_get (A : spmatrix) (i j : nat) : R :=
  default 0%R (sp_rows A !! i ≫= (.!! j)).

Definition row_set (r : gmap nat R) (jv : nat * R) : gmap nat R :=
  <[jv.1 := jv.2]> r.

(** [A[i, wvars] = w]: the entries [(i, wvars[k])] are set to [w[k]], in
    order; a row or column index outside the shape raises [IndexError], a
    value array of another length raises [ValueError]. *)
Definition sp_setrow (A : spmatrix) (i : nat) (wvars : list nat) (w : rvec)
  : outcome spmatrix :=
  if decide (i < (sp_shape A).1 ∧ Forall (λ j, j < (sp_shape A).2) wvars) then
    if decide (length wvars = length w) then
      Ret (SpMatrix (sp_shape A)
             (alter (λ r, foldl row_set r (zip wvars w)) i (sp_rows A)))
    else Raise ValueError
  else Raise IndexError.

Definition row_sum (r : gmap nat R) : R :=
  map_fold (λ _ v acc, (v + acc)%R) 0%R r.

Definition row_dot (r : gmap nat R) (x : rvec) : R :=
  map_fold (λ j v acc, (v * default 0 (x !! j) + acc)%R) 0%R r.

(** The product of a sparse matrix and a vector, row by row. *)
Definition sp_mul (A : spmatrix) (x : rvec) : rvec :=
  (λ r, row_dot r x) <$> sp_rows A.

(** [A.dot(x)]: a vector whose length is not the number of columns raises
    [ValueError]. *)
Definition sp_dot (A : spmatrix) (x : rvec) : outcome rvec :=
  if decide (length x = (sp_shape A).2) then Ret (sp_mul A x)
  else Raise ValueError.

(** [A.transpose()]. *)
Definition sp_transpose (A : spmatrix) : spmatrix :=
  SpMatrix ((sp_shape A).2, (sp_shape A).1)
    ((λ j, list_to_map
             (omap (λ i, (λ v, (i, v)) <$> (sp_rows A !! i ≫= (.!! j)))
                   (seq 0 (sp_shape A).1)))
       <$> seq 0 (sp_shape A).2).

(** The stiffness matrix as handed to SciPy:
    [sparse.csr_matrix((data, indices, indptr), shape=...)], taken as it
    is given; the later [tocsc()] changes the storage format, not the
    matrix. *)
Record csr := csr_matrix {
  csr_data : rvec;
  csr_indices : ivec;
  csr_indptr : ivec;
  csr_shape : Z * Z
}.

Definition tocsc (K : csr) : csr := K.

(** ** External collaborators *)

(** The compiled module [plane_stress].  Output buffers come last; a
    kernel returns the new content of the buffers it writes and leaves
    its other arguments as they are: [computenzpattern] returns the count
    and writes the row pointers and the column indices, [computemassderiv],
    [computekmat] and [computekmatderiv] write their last argument. *)
Class PlaneStress := {
  computenzpattern : imat → imat → ivec → ivec → Z * ivec * ivec;
  computemass : imat → rmat → rvec → R;
  computemassderiv : imat → rmat → rvec → rvec;
  computekmat :
    imat → imat → rmat → R → rmat → rvec → ivec → ivec → rvec → rvec;
  computekmatderiv :
    imat → imat → rmat → R → rmat → rvec → rvec → rvec → rvec → rvec
}.

(** SciPy: the ball query of a k-d tree against itself, and the sparse
    direct factorisation, which returns the solve closure or raises. *)
Class SciPy := {
  query_ball_tree : rmat → R → list (list nat);
  factorized : csr → option (rvec → rvec)
}.

(** Every call that leaves the Python file, with its arguments. *)
Inductive call :=
| Call_ParOpt_init (nnodes ncon : Z)
| Call_computenzpattern (conn vars : imat) (rowp cols : ivec)
| Call_computemass (conn : imat) (X : rmat) (rho : rvec)
| Call_computemassderiv (conn : imat) (X : rmat) (dmdx : rvec)
| Call_computekmat (conn vars : imat) (X : rmat) (qval : R) (C : rmat)
    (rho : rvec) (rowp cols : ivec) (Kvals : rvec)
| Call_computekmatderiv (conn vars : imat) (X : rmat) (qval : R) (C : rmat)
    (rho psi phi dKdrho : rvec)
| Call_query_ball_tree (X : rmat) (r : R)
| Call_factorized (K : csr)
| Call_LU (rhs : rvec).

(** ** The monad of the methods: state, exceptions and the call log *)

Definition M (S A : Type) : Type := S → list call → outcome A * S * list call.

Definition ret {S A} (a : A) : M S A := λ s l, (Ret a, s, l).

Definition bind {S A B} (m : M S A) (k : A → M S B) : M S B :=
  λ s l, match m s l with
         | (Ret a, s', l') => k a s' l'
         | (Raise e, s', l') => (Raise e, s', l')
         end.

Definition lift {S A} (o : outcome A) : M S A := λ s l, (o, s, l).
Definition get {S} : M S S := λ s l, (Ret s, s, l).
Definition modify {S} (f : S → S) : M S unit := λ s l, (Ret tt, f s, l).
Definition emit {S} (c : call) : M S unit := λ s l, (Ret tt, s, l ++ [c]).

Declare Scope py_scope.
Delimit Scope py_scope with py.
Notation "x <~ c ;; k" := (bind c (λ x, k))
  (at level 100, c at next level, right associativity) : py_scope.
Notation "c ;;; k" := (bind c (λ _, k))
  (at level 100, right associativity) : py_scope.
Local Open Scope py_scope.

(** ** The filter weights (lines 67-81 of the source) *)

(** [X[i,:]]. *)
Definition getrow (X : rmat) (i : nat) : outcome rvec :=
  match X !! i with Some r => Ret r | None => Raise IndexError end.

(** [np.sqrt(np.dot(X[i,:] - X[j,:], X[i,:] - X[j,:]))]. *)
Definition distance (xi xj : rvec) : R :=
  sqrt (vdot (vsub xi xj) (vsub xi xj)).

(** The inner loop over the candidates [rlist] of node [i], with the two
    accumulators [w] and [wvars] of the source. *)
Fixpoint filter_weights (X : rmat) (r0 : R) (i : nat) (rlist : list nat)
    (w : rvec) (wvars : list nat) : outcome (rvec * list nat) :=
  match rlist with
  | [] => Ret (w, wvars)
  | j :: rlist' =>
      outcome_bind (getrow X i) (λ xi,
      outcome_bind (getrow X j) (λ xj,
        let r := distance xi xj in
        if Rlt_dec r r0
        then filter_weights X r0 i rlist' (w ++ [((r0 - r) / r0)%R]) (wvars ++ [j])
        else filter_weights X r0 i rlist' w wvars))
  end.

(** [w /= np.sum(w)]. *)
Definition normalize (w : rvec) : rvec := (λ v, (v / Rsum w)%R) <$> w.

(** One iteration of the outer loop: the body for [(i, rlist)]. *)
Definition filter_row (X : rmat) (r0 : R) (A : spmatrix) (i : nat)
    (rlist : list nat) : outcome spmatrix :=
  outcome_bind (filter_weights X r0 i rlist [] []) (λ ww,
    sp_setrow A i ww.2 (normalize ww.1)).

(** [for i, rlist in enumerate(result)], from index [i] on. *)
Fixpoint filter_loop (X : rmat) (r0 : R) (A : spmatrix) (i : nat)
    (result : list (list nat)) : outcome spmatrix :=
  match result with
  | [] => Ret A
  | rlist :: result' =>
      outcome_bind (filter_row X r0 A i rlist) (λ A',
        filter_loop X r0 A' (S i) result')
  end.

(** ** The object *)

(** The attributes of [self].  [Kmat], [LU] and [u] do not exist before
    the first call of [compliance]. *)
Record Self := mkSelf {
  conn : imat;
  vars : imat;
  X : rmat;
  force : rvec;
  qval : R;
  C : rmat;
  nvars : Z;
  nnodes : Z;
  rowp : ivec;
  cols : ivec;
  Kvals : rvec;
  total_mass : R;
  F : spmatrix;
  Kmat : option csr;
  LU : option (rvec → rvec);
  u : option rvec
}.

Definition set_Kvals (v : rvec) (s : Self) : Self :=
  mkSelf (conn s) (vars s) (X s) (force s) (qval s) (C s) (nvars s) (nnodes s)
    (rowp s) (cols s) v (total_mass s) (F s) (Kmat s) (LU s) (u s).
Definition set_Kmat (v : csr) (s : Self) : Self :=
  mkSelf (conn s) (vars s) (X s) (force s) (qval s) (C s) (nvars s) (nnodes s)
    (rowp s) (cols s) (Kvals s) (total_mass s) (F s) (Some v) (LU s) (u s).
Definition set_LU (v : rvec → rvec) (s : Self) : Self :=
  mkSelf (conn s) (vars s) (X s) (force s) (qval s) (C s) (nvars s) (nnodes s)
    (rowp s) (cols s) (Kvals s) (total_mass s) (F s) (Kmat s) (Some v) (u s).
Definition set_u (v : rvec) (s : Self) : Self :=
  mkSelf (conn s) (vars s) (X s) (force s) (qval s) (C s) (nvars s) (nnodes s)
    (rowp s) (cols s) (Kvals s) (total_mass s) (F s) (Kmat s) (LU s) (Some v).

(** Reading an attribute that was never set raises [AttributeError]. *)
Definition getattr {A} (o : option A) : outcome A :=
  match o with Some a => Ret a | None => Raise AttributeError end.

Section ComplianceMinimization.
Context `{PS : PlaneStress} `{SP : SciPy}.

(** Logged calls of the external routines. *)
Definition call_computenzpattern {S} (cn vs : imat) (rp cl : ivec)
  : M S (Z * ivec * ivec) :=
  emit (Call_computenzpattern cn vs rp cl);;;
  ret (computenzpattern cn vs rp cl).

Definition call_computemass {S} (cn : imat) (xs : rmat) (rho : rvec) : M S R :=
  emit (Call_computemass cn xs rho);;;
  ret (computemass cn xs rho).

Definition call_computemassderiv {S} (cn : imat) (xs : rmat) (dmdx : rvec)
  : M S rvec :=
  emit (Call_computemassderiv cn xs dmdx);;;
  ret (computemassderiv cn xs dmdx).

Definition call_computekmat {S} (cn vs : imat) (xs : rmat) (q : R) (c : rmat)
    (rho : rvec) (rp cl : ivec) (kv : rvec) : M S rvec :=
  emit (Call_computekmat cn vs xs q c rho rp cl kv);;;
  ret (computekmat cn vs xs q c rho rp cl kv).

Definition call_computekmatderiv {S} (cn vs : imat) (xs : rmat) (q : R)
    (c : rmat) (rho psi phi dK : rvec) : M S rvec :=
  emit (Call_computekmatderiv cn vs xs q c rho psi phi dK);;;
  ret (computekmatderiv cn vs xs q c rho psi phi dK).

Definition call_query_ball_tree {S} (xs : rmat) (r : R) : M S (list (list nat)) :=
  emit (Call_query_ball_tree xs r);;;
  ret (query_ball_tree xs r).

(** [linalg.dsolve.factorized(K)] raises [RuntimeError] when the
    factorisation fails. *)
Definition call_factorized {S} (K : csr) : M S (rvec → rvec) :=
  emit (Call_factorized K);;;
  lift (match factorized K with Some lu => Ret lu | None => Raise RuntimeError end).

Definition call_LU {S} (lu : rvec → rvec) (rhs : rvec) : M S rvec :=
  emit (Call_LU rhs);;;
  ret (lu rhs).

(** *** [__init__] *)

(** Lines 30-53: the sizes and the non-zero pattern.  Returns
    [(nvars, nnodes, rowp, self.cols)]. *)
Definition init_pattern (conn vars : imat) : M unit (Z * Z * ivec * ivec) :=
  (* Set the number of variables and the number of nodes *)
  vmax <~ lift (np_max vars);;
  let nvars := (vmax + 1)%Z in
  cmax <~ lift (np_max conn);;
  let nnodes := (cmax + 1)%Z in
  emit (Call_ParOpt_init nnodes 1);;;
  (* Compute the non-zero pattern for the sparse matrix *)
  rowp <~ lift (np_zeros_int (nvars + 1));;
  cols <~ lift (np_zeros_int 1);;
  (* Compute the dimension of the cols array required *)
  nz1 <~ call_computenzpattern (T conn) (T vars) rowp cols;;
  let ncols := nz1.1.1 in
  let rowp := nz1.1.2 in
  (* Allocate the required dimension of the cols array *)
  cols_temp <~ lift (np_zeros_int ncols);;
  nz2 <~ call_computenzpattern (T conn) (T vars) rowp cols_temp;;
  let rowp := nz2.1.2 in
  let cols_temp := nz2.2 in
  (* Truncate the cols array *)
  rowp_last <~ lift (index_last rowp);;
  self_cols <~ lift (np_zeros_int rowp_last);;
  self_cols <~ lift (assign_all self_cols (take (Z.to_nat rowp_last) cols_temp));;
  ret (nvars, nnodes, rowp, self_cols).

(** Lines 59-84: the filter matrix. *)
Definition init_filter (nnodes : Z) (X : rmat) (r0 : R) : M unit spmatrix :=
  let F := lil_matrix nnodes nnodes in
  (* Form a KDTree *)
  result <~ call_query_ball_tree X r0;;
  F <~ lift (filter_loop X r0 F 0 result);;
  (* Convert the matrix to a CSR data format *)
  ret (tocsr F).

Definition __init__ (conn vars : imat) (X : rmat) (force : rvec)
    (r0 qval : R) (C : rmat) : M unit Self :=
  pat <~ init_pattern conn vars;;
  let nvars := pat.1.1.1 in
  let nnodes := pat.1.1.2 in
  let rowp := pat.1.2 in
  let cols := pat.2 in
  (* Allocate space for the entries of the matrix *)
  let Kvals := zeros_like cols in
  (* Compute the mass (area) of the structure with a full density *)
  rho <~ lift (np_ones nnodes);;
  total_mass <~ call_computemass (T conn) (T X) rho;;
  (* Now, compute the filter weights and store them as a sparse matrix *)
  F <~ init_filter nnodes X r0;;
  ret (mkSelf conn vars X force qval C nvars nnodes rowp cols Kvals
         total_mass F None None None).

(** *** The methods *)

Definition mass (x : rvec) : M Self R :=
  self <~ get;;
  call_computemass (T (conn self)) (T (X self)) x.

Definition mass_grad (x : rvec) : M Self rvec :=
  self <~ get;;
  let dmdx := zeros_like x in
  call_computemassderiv (T (conn self)) (T (X self)) dmdx.

Definition compliance (x : rvec) : M Self R :=
  self <~ get;;
  (* Compute the filtered variables *)
  rho <~ lift (sp_dot (F self) x);;
  (* Compute the stiffness matrix, written into self.Kvals *)
  kv <~ call_computekmat (T (conn self)) (T (vars self)) (T (X self))
          (qval self) (T (C self)) rho (rowp self) (cols self) (Kvals self);;
  modify (set_Kvals kv);;;
  (* Form the matrix *)
  let K := csr_matrix kv (cols self) (rowp self) (nvars self, nvars self) in
  modify (set_Kmat (tocsc K));;;
  lu <~ call_factorized (tocsc K);;
  modify (set_LU lu);;;
  (* Compute the solution to the linear system K*u = f *)
  sol <~ call_LU lu (force self);;
  modify (set_u sol);;;
  (* Return the compliance *)
  lift (np_dot (force self) sol).

Definition compliance_grad (x : rvec) : M Self rvec :=
  self <~ get;;
  (* Compute the filtered variables *)
  rho <~ lift (sp_dot (F self) x);;
  let dKdrho := zeros_like x in
  disp <~ lift (getattr (u self));;
  dK <~ call_computekmatderiv (T (conn self)) (T (vars self)) (T (X self))
          (qval self) (T (C self)) rho disp disp dKdrho;;
  (* Now evaluate the effect of the filter *)
  ft <~ lift (sp_dot (sp_transpose (F self)) dK);;
  ret (Ropp <$> ft).

(** [getVarsAndBounds] fills the three arrays it is given; their new
    contents are returned as [(x, lb, ub)]. *)
Definition getVarsAndBounds (x lb ub : rvec) : M Self (rvec * rvec * rvec) :=
  let lb' := replicate (length lb) 1e-3%R in
  let ub' := replicate (length ub) 1.0%R in
  let x' := replicate (length x) 0.95%R in
  ret (x', lb', ub').

Definition evalObjCon (x : rvec) : M Self (Z * R * rvec) :=
  let fail := 0%Z in
  obj <~ compliance x;;
  self <~ get;;
  m <~ mass x;;
  let con := [(0.4 * total_mass self - m)%R] in
  ret (fail, obj, con).

(** [evalObjConGradient] fills [g] and row 0 of [A]; their new contents
    are returned next to the fail flag. *)
Definition evalObjConGradient (x g : rvec) (A : rmat) : M Self (Z * rvec * rmat) :=
  let fail := 0%Z in
  dcdx <~ compliance_grad x;;
  g' <~ lift (assign_all g dcdx);;
  dmdx <~ mass_grad x;;
  A0 <~ lift (getrow A 0);;
  A0' <~ lift (assign_all A0 (Ropp <$> dmdx));;
  ret (fail, g', <[0%nat := A0']> A).

End ComplianceMinimization.

(** ** Sequences of method calls *)

Inductive method :=
| M_mass (x : rvec)
| M_mass_grad (x : rvec)
| M_compliance (x : rvec)
| M_compliance_grad (x : rvec)
| M_getVarsAndBounds (x lb ub : rvec)
| M_evalObjCon (x : rvec)
| M_evalObjConGradient (x g : rvec) (A : rmat).

Definition after {A} (r : outcome A * Self * list call) : Self * list call :=
  (r.1.2, r.2).

Section Runs.
Context `{PS : PlaneStress} `{SP : SciPy}.

(** The object and the log after one call, whether it returned or
    raised. *)
Definition exec (m : method) (sl : Self * list call) : Self * list call :=
  match m with
  | M_mass x => after (mass x sl.1 sl.2)
  | M_mass_grad x => after (mass_grad x sl.1 sl.2)
  | M_compliance x => after (compliance x sl.1 sl.2)
  | M_compliance_grad x => after (compliance_grad x sl.1 sl.2)
  | M_getVarsAndBounds x lb ub => after (getVarsAndBounds x lb ub sl.1 sl.2)
  | M_evalObjCon x => after (evalObjCon x sl.1 sl.2)
  | M_evalObjConGradient x g A => after (evalObjConGradient x g A sl.1 sl.2)
  end.

Definition run (ms : list method) (sl : Self * list call) : Self * list call :=
  foldl (λ sl m, exec m sl) sl ms.
End Runs.

(** ** Vocabulary of the statements *)

(** What no method writes: everything but the cache
    [Kvals], [Kmat], [LU], [u]. *)
Definition same_setup (s s' : Self) : Prop :=
  conn s' = conn s ∧ vars s' = vars s ∧ X s' = X s ∧ force s' = force s ∧
  qval s' = qval s ∧ C s' = C s ∧ nvars s' = nvars s ∧ nnodes s' = nnodes s ∧
  rowp s' = rowp s ∧ cols s' = cols s ∧ total_mass s' = total_mass s ∧
  F s' = F s.

Definition is_nzpattern_call (c : call) : bool :=
  match c with Call_computenzpattern _ _ _ _ => true | _ => false end.
Definition is_mass_call (c : call) : bool :=
  match c with Call_computemass _ _ _ => true | _ => false end.
Definition is_solver_call (c : call) : bool :=
  match c with Call_factorized _ | Call_LU _ => true | _ => false end.

(** A call a method may make on the object [s]: never the pattern kernel,
    and the stiffness assembly only with the pattern stored in [s]. *)
Definition method_call_ok (s : Self) (c : call) : Prop :=
  match c with
  | Call_computenzpattern _ _ _ _ => False
  | Call_ParOpt_init _ _ => False
  | Call_query_ball_tree _ _ => False
  | Call_computekmat _ _ _ _ _ _ rp cl _ => rp = rowp s ∧ cl = cols s
  | _ => True
  end.

(** The footprint of one call: the setup survives, the log grows by
    calls that use the stored pattern. *)
Definition frame (s : Self) (l : list call) (sl' : Self * list call) : Prop :=
  same_setup s sl'.1 ∧ ∃ l', sl'.2 = l ++ l' ∧ Forall (method_call_ok s) l'.

#[global] Instance Rlt_decision (a b : R) : Decision (a < b)%R := Rlt_dec a b.
#[global] Instance Rle_decision (a b : R) : Decision (a <= b)%R := Rle_dec a b.
#[global] Instance R_eq_decision : EqDecision R := Req_dec_T.

(** Euclidean distance between nodes [i] and [j] of the coordinate
    array. *)
Definition node_distance (X : rmat) (i j : nat) : R :=
  distance (default [] (X !! i)) (default [] (X !! j)).

(** The weight of the source before normalisation. *)
Definition raw_weight (X : rmat) (r0 : R) (i j : nat) : R :=
  ((r0 - node_distance X i j) / r0)%R.

(** The nodes strictly inside the ball of radius [r0] around node [i]. *)
Definition neighbours (X : rmat) (r0 : R) (i : nat) : list nat :=
  filter (λ j, (node_distance X i j < r0)%R) (seq 0 (length X)).

Definition raw_total (X : rmat) (r0 : R) (i : nat) : R :=
  Rsum (raw_weight X r0 i <$> neighbours X r0 i).

(** What the constructor needs from the ball query to run: one candidate
    list per point, holding point indices. *)
Definition ball_query_valid (X : rmat) (result : list (list nat)) : Prop :=
  length result = length X ∧
  ∀ i rlist j, result !! i = Some rlist → j ∈ rlist → j < length X.

(** What the filter needs from the ball query to be right: no candidate
    twice, and every point strictly inside the ball is a candidate.
    ([query_ball_tree] returns the points at distance at most [r0].) *)
Definition ball_query_ok (X : rmat) (r0 : R) (result : list (list nat)) : Prop :=
  ball_query_valid X result ∧
  ∀ i rlist, result !! i = Some rlist →
    NoDup rlist ∧
    ∀ j, j < length X → (node_distance X i j < r0)%R → j ∈ rlist.

(** Kernels write their output buffers in place, so a buffer keeps its
    length. *)
Definition nzpattern_in_place `{PS : PlaneStress} : Prop :=
  ∀ cn vs rp cl, length (computenzpattern cn vs rp cl).1.2 = length rp.

(** The candidates of [rlist] that pass the test [r < r0] for node [i]. *)
Definition selected (X : rmat) (r0 : R) (i : nat) (rlist : list nat) : list nat :=
  filter (λ j, (node_distance X i j < r0)%R) rlist.

(** The entries written into row [i]. *)
Definition filter_entries (X : rmat) (r0 : R) (i : nat) (rlist : list nat)
  : list (nat * R) :=
  zip (selected X r0 i rlist)
      (normalize (raw_weight X r0 i <$> selected X r0 i rlist)).

Section Assembly.
Context `{PS : PlaneStress}.

(** The stiffness values and the matrix that [compliance] assembles
    from the filtered density [rho]. *)
Definition assembled_Kvals (s : Self) (rho : rvec) : rvec :=
  computekmat (T (conn s)) (T (vars s)) (T (X s)) (qval s) (T (C s)) rho
    (rowp s) (cols s) (Kvals s).

Definition assembled_K (s : Self) (rho : rvec) : csr :=
  csr_matrix (assembled_Kvals s rho) (cols s) (rowp s) (nvars s, nvars s).

Definition Call_assembly (s : Self) (rho : rvec) : call :=
  Call_computekmat (T (conn s)) (T (vars s)) (T (X s)) (qval s) (T (C s)) rho
    (rowp s) (cols s) (Kvals s).

(** The derivative kernel as [compliance_grad] calls it, with the state
    vector [disp] in both state slots. *)
Definition kernel_dKdrho (s : Self) (rho disp : rvec) (x : rvec) : rvec :=
  computekmatderiv (T (conn s)) (T (vars s)) (T (X s)) (qval s) (T (C s))
    rho disp disp (zeros_like x).

Definition Call_derivative (s : Self) (rho disp : rvec) (x : rvec) : call :=
  Call_computekmatderiv (T (conn s)) (T (vars s)) (T (X s)) (qval s) (T (C s))
    rho disp disp (zeros_like x).

End Assembly.

(** ** A small concrete environment, for examples *)

(** A diagonal matrix pattern: row [k] holds the single column [k]. *)
Definition diag_nzpattern (cn vs : imat) (rp cl : ivec) : Z * ivec * ivec :=
  (Z.of_nat (pred (length rp)),
   Z.of_nat <$> seq 0 (length rp),
   Z.of_nat <$> seq 0 (length cl)).

(** Unit nodal masses and a diagonal stiffness equal to the density. *)
Definition diag_plane_stress : PlaneStress := {|
  computenzpattern := diag_nzpattern;
  computemass := λ _ _ rho, Rsum rho;
  computemassderiv := λ _ _ dmdx, (λ _, 1%R) <$> dmdx;
  computekmat := λ _ _ _ _ _ rho _ _ kv, take (length kv) (rho ++ zeros_like kv);
  computekmatderiv := λ _ _ _ _ _ _ psi phi dK,
    take (length dK) (zip_with Rmult psi phi ++ zeros_like dK)
|}.

(** The ball query by exhaustive search. *)
Definition brute_force_ball (X : rmat) (r : R) : list (list nat) :=
  (λ i, filter (λ j, (node_distance X i j <= r)%R) (seq 0 (length X)))
    <$> seq 0 (length X).

(** A diagonal matrix with a zero on the diagonal is singular. *)
Definition diag_factorized (K : csr) : option (rvec → rvec) :=
  if decide (0%R ∈ csr_data K) then None
  else Some (λ f, zip_with Rdiv f (csr_data K)).

Definition brute_scipy : SciPy := {|
  query_ball_tree := brute_force_ball;
  factorized := diag_factorized
|}.

(** ** The example mesh: one square element on four nodes *)

(** Nodes 0 and 2 (the left edge) are fixed, the load acts on node 3. *)
Definition ex_conn : imat := [[0; 1; 3; 2]]%Z.
Definition ex_vars : imat := [[-1; -1]; [0; 1]; [-1; -1]; [2; 3]]%Z.
Definition ex_X : rmat := [[0; 0]; [1; 0]; [0; 1]; [1; 1]]%R.
Definition ex_force : rvec := [0; 0; 0; 1]%R.
Definition ex_C : rmat := [[1; 0; 0]; [0; 1; 0]; [0; 0; 1]]%R.

Definition ex_init (r0 : R) : outcome Self * unit * list call :=
  __init__ (PS := diag_plane_stress) (SP := brute_scipy)
    ex_conn ex_vars ex_X ex_force r0 3 ex_C tt [].

(** The evaluator of the example mesh for a radius below the node
    spacing: every node is its own only neighbour, the filter is the
    identity. *)
Definition ex_self : Self :=
  mkSelf ex_conn ex_vars ex_X ex_force 3 ex_C 4 4
    [0; 1; 2; 3; 4]%Z [0; 1; 2; 3]%Z [0; 0; 0; 0]%R 4
    (SpMatrix (4, 4) [{[0 := 1%R]}; {[1 := 1%R]}; {[2 := 1%R]}; {[3 := 1%R]}])
    None None None.

(** ** Vocabulary of the further properties *)

Definition is_factorized_call (c : call) : bool :=
  match c with Call_factorized _ => true | _ => false end.
Definition is_LU_call (c : call) : bool :=
  match c with Call_LU _ => true | _ => false end.

(** The methods that evaluate the objective: they are the ones that
    assemble and factorise. *)
Definition is_objective_method (m : method) : bool :=
  match m with M_compliance _ | M_evalObjCon _ => true | _ => false end.


(** The example evaluator after [compliance] at the design 0.95. *)
Definition ex_x0 : rvec := [0.95; 0.95; 0.95; 0.95]%R.
Definition ex_lu : rvec → rvec := λ f, zip_with Rdiv f ex_x0.
Definition ex_solved : Self :=
  set_u (ex_lu ex_force)
    (set_LU ex_lu
       (set_Kmat (assembled_K (PS := diag_plane_stress) ex_self ex_x0)
          (set_Kvals (assembled_Kvals (PS := diag_plane_stress) ex_self ex_x0)
             ex_self))).

(** ** Facts about sums and distances *)

Lemma Rsum_nil : Rsum [] = 0%R.
Proof. reflexivity. Qed.

Lemma Rsum_cons (v : R) (w : rvec) : Rsum (v :: w) = (v + Rsum w)%R.
Proof. reflexivity. Qed.

Lemma Rsum_perm (a b : rvec) : a ≡ₚ b → Rsum a = Rsum b.
Proof.
  induction 1 as [|v a b _ IH|v v' a|a b c _ IH1 _ IH2]; simpl.
  - reflexivity.
  - by rewrite IH.
  - lra.
  - by rewrite IH1.
Qed.

Lemma Rsum_pos (w : rvec) :
  w ≠ [] → Forall (λ v, (0 < v)%R) w → (0 < Rsum w)%R.
Proof.
  intros Hne Hpos. destruct w as [|v w]; [done|]. clear Hne.
  revert v Hpos. induction w as [|v' w IH]; intros v Hpos; simpl.
  - apply Forall_cons in Hpos as [Hv _]. lra.
  - apply Forall_cons in Hpos as [Hv Hw]. specialize (IH _ Hw). simpl in IH. lra.
Qed.

Lemma Rsum_div (c : R) (l : rvec) :
  Rsum ((λ v, (v / c)%R) <$> l) = (Rsum l / c)%R.
Proof.
  unfold Rsum. induction l as [|v l IH]; csimpl; [lra|].
  rewrite IH. lra.
Qed.

Lemma Rsum_normalize (w : rvec) : Rsum w ≠ 0%R → Rsum (normalize w) = 1%R.
Proof. intros Hs. unfold normalize. rewrite Rsum_div. by field. Qed.

Lemma vdot_vsub_self (a : rvec) : vdot (vsub a a) (vsub a a) = 0%R.
Proof.
  unfold vdot, vsub. induction a as [|v a IH]; simpl; [done|].
  rewrite IH. lra.
Qed.

Lemma distance_self (a : rvec) : distance a a = 0%R.
Proof. unfold distance. rewrite vdot_vsub_self. apply sqrt_0. Qed.

Lemma distance_nonneg (a b : rvec) : (0 <= distance a b)%R.
Proof. apply sqrt_pos. Qed.

Lemma node_distance_self (X : rmat) (i : nat) : node_distance X i i = 0%R.
Proof. apply distance_self. Qed.

Lemma node_distance_nonneg (X : rmat) (i j : nat) : (0 <= node_distance X i j)%R.
Proof. apply distance_nonneg. Qed.

Lemma raw_weight_pos (X : rmat) (r0 : R) (i j : nat) :
  (node_distance X i j < r0)%R → (0 < raw_weight X r0 i j)%R.
Proof.
  intros Hd. pose proof (node_distance_nonneg X i j) as H0.
  unfold raw_weight. apply Rdiv_lt_0_compat; lra.
Qed.

Lemma raw_weight_self (X : rmat) (r0 : R) (i : nat) :
  (0 < r0)%R → raw_weight X r0 i i = 1%R.
Proof.
  intros Hr. unfold raw_weight. rewrite node_distance_self. field. lra.
Qed.

(** ** The filter loop *)

Lemma getrow_lt (X : rmat) (i : nat) :
  i < length X → getrow X i = Ret (default [] (X !! i)).
Proof.
  intros Hi. unfold getrow.
  destruct (lookup_lt_is_Some_2 X i Hi) as [xi ->]. done.
Qed.

Lemma filter_weights_spec (X : rmat) (r0 : R) (i : nat) (rlist : list nat) :
  ∀ (w : rvec) (wvars : list nat),
    (rlist ≠ [] → i < length X) →
    Forall (λ j, j < length X) rlist →
    filter_weights X r0 i rlist w wvars =
      Ret (w ++ (raw_weight X r0 i <$> selected X r0 i rlist),
           wvars ++ selected X r0 i rlist).
Proof.
  induction rlist as [|j rl IH]; intros w wvars Hi Hall; simpl.
  - by rewrite !app_nil_r.
  - apply Forall_cons in Hall as [Hj Hrl].
    rewrite (getrow_lt X i) by (by apply Hi). simpl.
    rewrite (getrow_lt X j) by done. simpl.
    fold (node_distance X i j). unfold selected. rewrite filter_cons.
    fold (selected X r0 i rl).
    destruct (Rlt_dec (node_distance X i j) r0) as [Hlt|Hge].
    + rewrite decide_True by done. rewrite IH by (done || by intros _; apply Hi).
      rewrite fmap_cons, <- !app_assoc. done.
    + rewrite decide_False by done. apply IH; [by intros _; apply Hi | done].
Qed.

Lemma sp_setrow_ok (A : spmatrix) (i : nat) (wvars : list nat) (w : rvec) :
  i < (sp_shape A).1 → Forall (λ j, j < (sp_shape A).2) wvars →
  length wvars = length w →
  sp_setrow A i wvars w =
    Ret (SpMatrix (sp_shape A)
           (alter (λ r, foldl row_set r (zip wvars w)) i (sp_rows A))).
Proof.
  intros Hi Hall Hlen. unfold sp_setrow.
  rewrite decide_True by done. by rewrite decide_True.
Qed.

Lemma sp_setrow_inv (A A' : spmatrix) (i : nat) (wvars : list nat) (w : rvec) :
  sp_setrow A i wvars w = Ret A' →
  i < (sp_shape A).1 ∧ sp_shape A' = sp_shape A ∧
  length (sp_rows A') = length (sp_rows A).
Proof.
  unfold sp_setrow. intros H.
  destruct (decide _) as [[Hi _]|]; [|done].
  destruct (decide _); [|done]. simplify_eq.
  simpl. by rewrite length_alter.
Qed.

Lemma selected_lt (X : rmat) (r0 : R) (i : nat) (rlist : list nat) (n : nat) :
  Forall (λ j, j < n) rlist → Forall (λ j, j < n) (selected X r0 i rlist).
Proof.
  intros H. unfold selected. rewrite Forall_forall in *.
  intros j Hj. apply list_elem_of_filter in Hj as [_ Hj]. by apply H.
Qed.

Lemma filter_row_spec (X : rmat) (r0 : R) (A : spmatrix) (i : nat)
    (rlist : list nat) :
  i < length X → i < (sp_shape A).1 → length X ≤ (sp_shape A).2 →
  Forall (λ j, j < length X) rlist →
  filter_row X r0 A i rlist =
    Ret (SpMatrix (sp_shape A)
           (alter (λ r, foldl row_set r (filter_entries X r0 i rlist)) i (sp_rows A))).
Proof.
  intros HiX HiA Hcols Hall. unfold filter_row.
  rewrite filter_weights_spec by done. simpl.
  apply sp_setrow_ok; [done| |].
  - eapply Forall_impl; [by apply selected_lt|]. simpl. lia.
  - unfold normalize. by rewrite !length_fmap.
Qed.

Lemma filter_loop_spec (X : rmat) (r0 : R) (result : list (list nat)) :
  ∀ (A : spmatrix) (i0 : nat),
    i0 + length result ≤ length X →
    i0 + length result ≤ (sp_shape A).1 →
    length (sp_rows A) = (sp_shape A).1 →
    length X ≤ (sp_shape A).2 →
    (∀ k rlist j, result !! k = Some rlist → j ∈ rlist → j < length X) →
    ∃ A', filter_loop X r0 A i0 result = Ret A' ∧
      sp_shape A' = sp_shape A ∧
      length (sp_rows A') = length (sp_rows A) ∧
      (∀ i, i < i0 ∨ i0 + length result ≤ i → sp_rows A' !! i = sp_rows A !! i) ∧
      (∀ k rlist, result !! k = Some rlist →
         sp_rows A' !! (i0 + k) =
           (λ r, foldl row_set r (filter_entries X r0 (i0 + k) rlist))
             <$> sp_rows A !! (i0 + k)).
Proof.
  induction result as [|rl result IH]; intros A i0 HX Hrows Hlen Hcols Hvalid; simpl.
  - exists A. by repeat split.
  - simpl in HX, Hrows.
    rewrite filter_row_spec; [|lia|lia|done|].
    2:{ rewrite Forall_forall. intros j Hj. by apply (Hvalid 0 rl j). }
    simpl.
    set (A1 := SpMatrix _ _).
    destruct (IH A1 (S i0)) as (A' & Hrun & Hshape & Hlen' & Hout & Hin).
    { lia. } { simpl. lia. } { simpl. by rewrite length_alter. } { done. }
    { intros k rlist j Hk. by apply (Hvalid (S k)). }
    exists A'. split; [done|]. simpl in *. rewrite length_alter in Hlen'.
    repeat split; try done.
    + intros i Hi. rewrite Hout by lia. apply list_lookup_alter_ne. lia.
    + intros [|k] rlist Hk; simpl in Hk.
      * simplify_eq. rewrite Nat.add_0_r, Hout by lia.
        apply list_lookup_alter_eq.
      * rewrite Nat.add_succ_r, (Hin k rlist Hk).
        by rewrite list_lookup_alter_ne by lia.
Qed.

(** ** Rows written from a duplicate-free index list *)

Lemma row_sum_insert (r : gmap nat R) (j : nat) (v : R) :
  r !! j = None → row_sum (<[j:=v]> r) = (v + row_sum r)%R.
Proof.
  intros Hj. unfold row_sum. apply map_fold_insert_L; [|done].
  intros. lra.
Qed.

Lemma foldl_row_set_notin (es : list (nat * R)) :
  ∀ (r : gmap nat R) (j : nat), j ∉ es.*1 → foldl row_set r es !! j = r !! j.
Proof.
  induction es as [|[j' v] es IH]; intros r j Hj; simpl; [done|].
  rewrite fmap_cons in Hj. apply not_elem_of_cons in Hj as [Hne Hj]. simpl in Hne.
  rewrite IH by done. unfold row_set. simpl. by rewrite lookup_insert_ne.
Qed.

Lemma foldl_row_set_in (es : list (nat * R)) :
  ∀ (r : gmap nat R) (j : nat) (v : R),
    NoDup es.*1 → (j, v) ∈ es → foldl row_set r es !! j = Some v.
Proof.
  induction es as [|[j' v'] es IH]; intros r j v Hnd Hin; simpl.
  - by apply elem_of_nil in Hin.
  - rewrite fmap_cons in Hnd. apply NoDup_cons in Hnd as [Hnotin Hnd].
    apply elem_of_cons in Hin as [Heq|Hin].
    + simplify_eq. rewrite foldl_row_set_notin by done.
      unfold row_set. simpl. by rewrite lookup_insert_eq.
    + by apply IH.
Qed.

Lemma foldl_row_set_sum (es : list (nat * R)) :
  ∀ (r : gmap nat R),
    NoDup es.*1 → (∀ j, j ∈ es.*1 → r !! j = None) →
    row_sum (foldl row_set r es) = (Rsum es.*2 + row_sum r)%R.
Proof.
  induction es as [|[j v] es IH]; intros r Hnd Hfresh; csimpl.
  - lra.
  - rewrite fmap_cons in Hnd. apply NoDup_cons in Hnd as [Hnotin Hnd].
    simpl in Hnotin. rewrite IH; [|done|].
    + unfold row_set; simpl. rewrite row_sum_insert.
      * lra.
      * apply Hfresh. rewrite fmap_cons. apply elem_of_cons. by left.
    + intros j' Hj'. unfold row_set; simpl.
      rewrite lookup_insert_ne by (intros ->; done).
      apply Hfresh. rewrite fmap_cons. apply elem_of_cons. by right.
Qed.

Lemma row_sum_empty : row_sum ∅ = 0%R.
Proof. unfold row_sum. apply map_fold_empty. Qed.

(** The entries of row [i] as a function of the selected column. *)
Lemma filter_entries_fmap (X : rmat) (r0 : R) (i : nat) (rlist : list nat) :
  filter_entries X r0 i rlist =
    (λ j, (j, (raw_weight X r0 i j
               / Rsum (raw_weight X r0 i <$> selected X r0 i rlist))%R))
      <$> selected X r0 i rlist.
Proof.
  unfold filter_entries, normalize.
  rewrite <- list_fmap_compose, zip_with_fmap_r, zip_with_diag. done.
Qed.

Lemma filter_entries_fst (X : rmat) (r0 : R) (i : nat) (rlist : list nat) :
  (filter_entries X r0 i rlist).*1 = selected X r0 i rlist.
Proof.
  rewrite filter_entries_fmap, <- list_fmap_compose.
  rewrite <- (list_fmap_id (selected _ _ _ _)) at 2. done.
Qed.

Lemma filter_entries_snd (X : rmat) (r0 : R) (i : nat) (rlist : list nat) :
  (filter_entries X r0 i rlist).*2 =
    normalize (raw_weight X r0 i <$> selected X r0 i rlist).
Proof.
  unfold filter_entries. apply snd_zip.
  unfold normalize. rewrite !length_fmap. done.
Qed.

(** Under the contract of the ball query the selected candidates are the
    neighbours, up to their order. *)
Lemma selected_neighbours (X : rmat) (r0 : R) (result : list (list nat))
    (i : nat) (rlist : list nat) :
  ball_query_ok X r0 result → result !! i = Some rlist →
  selected X r0 i rlist ≡ₚ neighbours X r0 i.
Proof.
  intros [[Hlen Hvalid] Hok] Hi. destruct (Hok i rlist Hi) as [Hnd Hcomplete].
  apply NoDup_Permutation.
  - by apply NoDup_filter.
  - apply NoDup_filter, NoDup_seq.
  - intros j. unfold selected, neighbours.
    rewrite !list_elem_of_filter, elem_of_seq. split.
    + intros [Hd Hj]. split; [done|]. pose proof (Hvalid i rlist j Hi Hj). lia.
    + intros [Hd Hj]. split; [done|]. apply Hcomplete; [lia|done].
Qed.

Lemma selected_total (X : rmat) (r0 : R) (result : list (list nat))
    (i : nat) (rlist : list nat) :
  ball_query_ok X r0 result → result !! i = Some rlist →
  Rsum (raw_weight X r0 i <$> selected X r0 i rlist) = raw_total X r0 i.
Proof.
  intros Hok Hi. unfold raw_total. apply Rsum_perm, fmap_Permutation.
  by eapply selected_neighbours.
Qed.

Lemma raw_total_pos (X : rmat) (r0 : R) (i : nat) :
  (0 < r0)%R → i < length X → (0 < raw_total X r0 i)%R.
Proof.
  intros Hr Hi. unfold raw_total. apply Rsum_pos.
  - assert (Hin : i ∈ neighbours X r0 i).
    { unfold neighbours. rewrite list_elem_of_filter, elem_of_seq.
      rewrite node_distance_self. split; [done|lia]. }
    intros Hnil. apply fmap_nil_inv in Hnil. rewrite Hnil in Hin.
    by apply elem_of_nil in Hin.
  - rewrite Forall_fmap, Forall_forall. intros j Hj. simpl.
    apply raw_weight_pos. unfold neighbours in Hj.
    by apply list_elem_of_filter in Hj as [Hd _].
Qed.

(** ** The constructor, block by block *)

Lemma filter_matrix_spec (X : rmat) (r0 : R) (n : Z) (result : list (list nat)) :
  ball_query_valid X result → length X ≤ Z.to_nat n →
  ∃ Fm, filter_loop X r0 (lil_matrix n n) 0 result = Ret Fm ∧
    sp_shape Fm = (Z.to_nat n, Z.to_nat n) ∧
    length (sp_rows Fm) = Z.to_nat n ∧
    (∀ i rlist, result !! i = Some rlist →
       sp_rows Fm !! i = Some (foldl row_set ∅ (filter_entries X r0 i rlist))) ∧
    (∀ i, length X ≤ i → i < Z.to_nat n → sp_rows Fm !! i = Some ∅).
Proof.
  intros [Hlen Hvalid] Hn.
  destruct (filter_loop_spec X r0 result (lil_matrix n n) 0)
    as (Fm & Hrun & Hshape & Hrows & Hout & Hin); simpl.
  { lia. } { lia. } { by rewrite length_replicate. } { done. } { done. }
  exists Fm. simpl in *. rewrite length_replicate in Hrows.
  repeat split; try done.
  - intros i rlist Hi. rewrite (Hin i rlist Hi).
    rewrite lookup_replicate_2; [done|].
    apply lookup_lt_Some in Hi. lia.
  - intros i Hi1 Hi2. rewrite Hout by lia. by apply lookup_replicate_2.
Qed.

(** A successful loop wrote one row per candidate list, so there were at
    most as many lists as rows. *)
Lemma filter_loop_rows (X : rmat) (r0 : R) (result : list (list nat)) :
  ∀ (A A' : spmatrix) (i0 : nat),
    filter_loop X r0 A i0 result = Ret A' → result ≠ [] →
    i0 + length result ≤ (sp_shape A).1.
Proof.
  induction result as [|rl result IH]; intros A A' i0 Hrun Hne; [done|].
  simpl in Hrun. unfold filter_row in Hrun.
  destruct (filter_weights X r0 i0 rl [] []) as [[w wvars]|]; [|done].
  simpl in Hrun.
  destruct (sp_setrow A i0 wvars (normalize w)) as [A1|] eqn:Hset; [|done].
  simpl in Hrun. apply sp_setrow_inv in Hset as (Hi & Hshape & _).
  destruct result as [|rl' result]; [simpl; lia|].
  specialize (IH A1 A' (S i0) Hrun). rewrite Hshape in IH.
  simpl in *. by lapply IH; [lia|].
Qed.

Section Construction.
Context `{PS : PlaneStress} `{SP : SciPy}.

Lemma init_iff (conn vars : imat) (X : rmat) (force : rvec) (r0 qval : R)
    (C : rmat) (l0 : list call) (s : Self) (l : list call) :
  __init__ conn vars X force r0 qval C tt l0 = (Ret s, tt, l) ↔
  ∃ pat l1 rho Fm,
    init_pattern conn vars tt l0 = (Ret pat, tt, l1) ∧
    np_ones pat.1.1.2 = Ret rho ∧
    filter_loop X r0 (lil_matrix pat.1.1.2 pat.1.1.2) 0 (query_ball_tree X r0)
      = Ret Fm ∧
    l = (l1 ++ [Call_computemass (T conn) (T X) rho])
          ++ [Call_query_ball_tree X r0] ∧
    s = mkSelf conn vars X force qval C pat.1.1.1 pat.1.1.2 pat.1.2 pat.2
          (zeros_like pat.2) (computemass (T conn) (T X) rho) Fm
          None None None.
Proof.
  unfold __init__, init_filter, call_computemass, call_query_ball_tree.
  unfold bind at 1 2 3 4 5 6 7 8. unfold lift, emit, ret, tocsr.
  destruct (init_pattern conn vars tt l0) as [[[pat|e] []] l1].
  - destruct (np_ones pat.1.1.2) as [rho|e] eqn:Hones.
    + destruct (filter_loop _ _ _ _ _) as [Fm|e] eqn:Hloop.
      * split.
        -- intros [= <- <-]. by exists pat, l1, rho, Fm.
        -- intros (? & ? & ? & ? & Hpat & Hones' & Hloop' & -> & ->).
           simplify_eq. rewrite Hones in Hones'. simplify_eq.
           rewrite Hloop in Hloop'. by simplify_eq.
      * split; [done|].
        intros (? & ? & ? & ? & Hpat & Hones' & Hloop' & _).
        simplify_eq. rewrite Hones in Hones'. simplify_eq.
        rewrite Hloop in Hloop'. done.
    + split; [done|]. intros (? & ? & ? & ? & Hpat & Hones' & _).
      simplify_eq. rewrite Hones in Hones'. done.
  - split; [done|]. by intros (? & ? & ? & ? & [=] & _).
Qed.

(** Everything the first block does, read off a successful run. *)
Lemma init_pattern_inv (conn vars : imat) (l0 : list call)
    (pat : Z * Z * ivec * ivec) (l1 : list call) :
  init_pattern conn vars tt l0 = (Ret pat, tt, l1) →
  ∃ vmax cmax rowp_last,
    let rowp0 := replicate (Z.to_nat (vmax + 1 + 1)) 0%Z in
    let nz1 := computenzpattern (T conn) (T vars) rowp0 [0%Z] in
    let cols_temp0 := replicate (Z.to_nat nz1.1.1) 0%Z in
    let nz2 := computenzpattern (T conn) (T vars) nz1.1.2 cols_temp0 in
    np_max vars = Ret vmax ∧ np_max conn = Ret cmax ∧
    (0 ≤ vmax + 1 + 1)%Z ∧ (0 ≤ nz1.1.1)%Z ∧
    last nz2.1.2 = Some rowp_last ∧ (0 ≤ rowp_last)%Z ∧
    assign_all (replicate (Z.to_nat rowp_last) 0%Z)
               (take (Z.to_nat rowp_last) nz2.2) = Ret pat.2 ∧
    pat.1 = ((vmax + 1)%Z, (cmax + 1)%Z, nz2.1.2) ∧
    l1 = l0 ++ [Call_ParOpt_init (cmax + 1) 1;
                Call_computenzpattern (T conn) (T vars) rowp0 [0%Z];
                Call_computenzpattern (T conn) (T vars) nz1.1.2 cols_temp0].
Proof.
  unfold init_pattern, call_computenzpattern.
  unfold bind, lift, emit, ret, np_zeros_int, np_full, index_last.
  destruct (np_max vars) as [vmax|]; [|done].
  destruct (np_max conn) as [cmax|]; [|done].
  destruct (decide (vmax + 1 + 1 < 0)%Z); [done|].
  destruct (decide (1 < 0)%Z); [lia|].
  change (replicate (Z.to_nat 1) 0%Z) with [0%Z].
  destruct (decide (_ < 0)%Z); [done|].
  destruct (last _) as [rowp_last|] eqn:Hlast; [|done].
  destruct (decide (rowp_last < 0)%Z); [done|].
  destruct (assign_all _ _) as [sc|] eqn:Hassign; [|done].
  intros [= <- <-]. exists vmax, cmax, rowp_last. simpl.
  rewrite <- !app_assoc. simpl. repeat split; try done; lia.
Qed.
End Construction.

(** ** The entries of the filter matrix *)

Lemma selected_nonpos (X : rmat) (r0 : R) (i : nat) (rlist : list nat) :
  (r0 <= 0)%R → selected X r0 i rlist = [].
Proof.
  intros Hr. unfold selected. induction rlist as [|j rl IH]; [done|].
  rewrite filter_cons, IH. rewrite decide_False; [done|].
  pose proof (node_distance_nonneg X i j). lra.
Qed.

Lemma filter_loop_length (X : rmat) (r0 : R) (n : Z) (result : list (list nat))
    (Fm : spmatrix) :
  ball_query_valid X result →
  filter_loop X r0 (lil_matrix n n) 0 result = Ret Fm →
  length X ≤ Z.to_nat n.
Proof.
  intros [Hlen _] Hloop. destruct result as [|rl result].
  - simpl in Hlen. lia.
  - apply filter_loop_rows in Hloop; [|done]. simpl in *. lia.
Qed.

Lemma filter_matrix_entries (X : rmat) (r0 : R) (n : Z)
    (result : list (list nat)) (Fm : spmatrix) :
  ball_query_ok X r0 result →
  filter_loop X r0 (lil_matrix n n) 0 result = Ret Fm →
  ∀ i, i < length X →
    ∃ row, sp_rows Fm !! i = Some row ∧
      (∀ j, row !! j =
            if decide (j < length X ∧ (node_distance X i j < r0)%R)
            then Some (raw_weight X r0 i j / raw_total X r0 i)%R else None) ∧
      row_sum row = Rsum (normalize (raw_weight X r0 i <$> neighbours X r0 i)).
Proof.
  intros Hok Hloop i Hi. pose proof Hok as [Hvalid Hok'].
  pose proof (filter_loop_length _ _ _ _ _ Hvalid Hloop) as Hn.
  destruct (filter_matrix_spec X r0 n result Hvalid Hn)
    as (Fm' & Hloop' & _ & _ & Hrows & _).
  rewrite Hloop in Hloop'. injection Hloop' as <-.
  destruct Hvalid as [Hlen Hvalid].
  destruct (lookup_lt_is_Some_2 result i) as [rlist Hrl]; [lia|].
  pose proof (selected_neighbours X r0 result i rlist Hok Hrl) as Hperm.
  pose proof (selected_total X r0 result i rlist Hok Hrl) as Htot.
  destruct (Hok' i rlist Hrl) as [Hnd _].
  assert (Hnd' : NoDup (filter_entries X r0 i rlist).*1).
  { rewrite filter_entries_fst. by apply NoDup_filter. }
  eexists. split; [by apply Hrows|]. split.
  - intros j. destruct (decide _) as [[Hj Hd]|Hno].
    + apply foldl_row_set_in; [done|].
      rewrite filter_entries_fmap, Htot. apply list_elem_of_fmap.
      exists j. split; [done|]. rewrite Hperm. unfold neighbours.
      apply list_elem_of_filter. split; [done|]. apply elem_of_seq. lia.
    + rewrite foldl_row_set_notin; [done|].
      rewrite filter_entries_fst, Hperm. unfold neighbours.
      rewrite list_elem_of_filter, elem_of_seq. intros [Hd Hj]. apply Hno.
      split; [lia|done].
  - rewrite foldl_row_set_sum; [|done|done].
    rewrite filter_entries_snd, row_sum_empty, Rplus_0_r.
    unfold normalize. rewrite !Rsum_div.
    f_equal; apply Rsum_perm, fmap_Permutation, Hperm.
Qed.

Lemma sp_get_row (A : spmatrix) (i j : nat) (row : gmap nat R) :
  sp_rows A !! i = Some row → sp_get A i j = default 0%R (row !! j).
Proof. intros Hrow. unfold sp_get. by rewrite Hrow. Qed.

Lemma filter_matrix_outside (X : rmat) (r0 : R) (n : Z)
    (result : list (list nat)) (Fm : spmatrix) (i j : nat) :
  ball_query_valid X result →
  filter_loop X r0 (lil_matrix n n) 0 result = Ret Fm →
  length X ≤ i → sp_get Fm i j = 0%R.
Proof.
  intros Hvalid Hloop Hi.
  pose proof (filter_loop_length _ _ _ _ _ Hvalid Hloop) as Hn.
  destruct (filter_matrix_spec X r0 n result Hvalid Hn)
    as (Fm' & Hloop' & _ & Hlen & _ & Hrest).
  rewrite Hloop in Hloop'. injection Hloop' as <-. unfold sp_get.
  destruct (decide (i < Z.to_nat n)) as [Hi'|Hi'].
  - by rewrite Hrest.
  - by rewrite lookup_ge_None_2 by lia.
Qed.

(** With a radius [r0 ≤ 0] no candidate passes the test [r < r0]: the
    loop writes nothing and returns the empty matrix it started from. *)
Lemma filter_matrix_nonpos (X : rmat) (r0 : R) (n : Z) (result : list (list nat)) :
  (r0 <= 0)%R → ball_query_valid X result → length X ≤ Z.to_nat n →
  filter_loop X r0 (lil_matrix n n) 0 result = Ret (lil_matrix n n).
Proof.
  intros Hr Hvalid Hn.
  destruct (filter_matrix_spec X r0 n result Hvalid Hn)
    as (Fm & Hloop & Hshape & Hlen & Hrows & Hrest).
  rewrite Hloop. f_equal. destruct Fm as [shape rows]. simpl in *.
  unfold lil_matrix. f_equal; [done|].
  apply list_eq. intros i. destruct Hvalid as [Hlen0 _].
  destruct (decide (i < length X)) as [Hi|Hi].
  - destruct (lookup_lt_is_Some_2 result i) as [rlist Hrl]; [lia|].
    rewrite (Hrows i rlist Hrl). unfold filter_entries.
    rewrite selected_nonpos by done. simpl.
    by rewrite lookup_replicate_2 by lia.
  - destruct (decide (i < Z.to_nat n)) as [Hi'|Hi'].
    + rewrite Hrest by lia. by rewrite lookup_replicate_2.
    + rewrite !lookup_ge_None_2; [done| |]; rewrite ?length_replicate; lia.
Qed.

Lemma sp_get_lil_matrix (m n : Z) (i j : nat) : sp_get (lil_matrix m n) i j = 0%R.
Proof.
  unfold sp_get, lil_matrix. simpl.
  destruct (decide (i < Z.to_nat m)) as [Hi|Hi].
  - by rewrite lookup_replicate_2.
  - by rewrite lookup_ge_None_2 by (rewrite length_replicate; lia).
Qed.

Section ConstructionFacts.
Context `{PS : PlaneStress} `{SP : SciPy}.

Lemma init_nonpositive_radius (cn vs : imat) (xs : rmat) (frc : rvec)
    (r0 r1 q : R) (cm : rmat) (s1 : Self) (l1 : list call) :
  (r0 <= 0)%R →
  ball_query_valid xs (query_ball_tree xs r0) →
  ball_query_valid xs (query_ball_tree xs r1) →
  __init__ cn vs xs frc r1 q cm tt [] = (Ret s1, tt, l1) →
  ∃ s0 l0, __init__ cn vs xs frc r0 q cm tt [] = (Ret s0, tt, l0) ∧
    F s0 = lil_matrix (nnodes s0) (nnodes s0) ∧
    nvars s0 = nvars s1 ∧ nnodes s0 = nnodes s1 ∧
    rowp s0 = rowp s1 ∧ cols s0 = cols s1 ∧ total_mass s0 = total_mass s1.
Proof.
  intros Hr Hv0 Hv1 Hinit.
  apply init_iff in Hinit as (pat & l1' & rho & Fm1 & Hpat & Hones & Hloop1 & -> & ->).
  pose proof (filter_loop_length _ _ _ _ _ Hv1 Hloop1) as Hn.
  pose proof (filter_matrix_nonpos xs r0 pat.1.1.2 _ Hr Hv0 Hn) as Hloop0.
  eexists _, _. split.
  { apply init_iff. exists pat, l1', rho, (lil_matrix pat.1.1.2 pat.1.1.2).
    by repeat split. }
  done.
Qed.

End ConstructionFacts.

(** ** The methods, call by call *)

Section Methods.
Context `{PS : PlaneStress} `{SP : SciPy}.

Lemma sp_dot_ok (A : spmatrix) (x : rvec) :
  length x = (sp_shape A).2 → sp_dot A x = Ret (sp_mul A x).
Proof. intros Hx. unfold sp_dot. by rewrite decide_True. Qed.

Lemma mass_run (x : rvec) (s : Self) (l : list call) :
  mass x s l =
    (Ret (computemass (T (conn s)) (T (X s)) x), s,
     l ++ [Call_computemass (T (conn s)) (T (X s)) x]).
Proof. reflexivity. Qed.

Lemma mass_grad_run (x : rvec) (s : Self) (l : list call) :
  mass_grad x s l =
    (Ret (computemassderiv (T (conn s)) (T (X s)) (zeros_like x)), s,
     l ++ [Call_computemassderiv (T (conn s)) (T (X s)) (zeros_like x)]).
Proof. reflexivity. Qed.

Lemma compliance_run (x : rvec) (s : Self) (l : list call) :
  compliance x s l =
    match sp_dot (F s) x with
    | Raise e => (Raise e, s, l)
    | Ret rho =>
        let K := assembled_K s rho in
        let s1 := set_Kmat K (set_Kvals (assembled_Kvals s rho) s) in
        let l1 := l ++ [Call_assembly s rho; Call_factorized K] in
        match factorized K with
        | None => (Raise RuntimeError, s1, l1)
        | Some lu =>
            (np_dot (force s) (lu (force s)),
             set_u (lu (force s)) (set_LU lu s1),
             l1 ++ [Call_LU (force s)])
        end
    end.
Proof.
  unfold compliance, call_computekmat, call_factorized, call_LU.
  unfold bind, get, lift, emit, ret, modify, tocsc.
  destruct (sp_dot (F s) x) as [rho|e]; [|done]. simpl.
  fold (assembled_Kvals s rho). fold (assembled_K s rho).
  fold (Call_assembly s rho). rewrite <- !app_assoc. simpl.
  by destruct (factorized (assembled_K s rho)) as [lu|].
Qed.

Lemma compliance_grad_run (x : rvec) (s : Self) (l : list call) :
  compliance_grad x s l =
    match sp_dot (F s) x with
    | Raise e => (Raise e, s, l)
    | Ret rho =>
        match u s with
        | None => (Raise AttributeError, s, l)
        | Some disp =>
            (outcome_bind
               (sp_dot (sp_transpose (F s)) (kernel_dKdrho s rho disp x))
               (λ ft, Ret (Ropp <$> ft)),
             s, l ++ [Call_derivative s rho disp x])
        end
    end.
Proof.
  unfold compliance_grad, call_computekmatderiv.
  unfold bind, get, lift, emit, ret.
  destruct (sp_dot (F s) x) as [rho|e]; [|done].
  destruct (u s) as [disp|]; [|done]. simpl.
  fold (kernel_dKdrho s rho disp x). fold (Call_derivative s rho disp x).
  by destruct (sp_dot _ _).
Qed.

Lemma evalObjCon_run (x : rvec) (s : Self) (l : list call) :
  evalObjCon x s l =
    match compliance x s l with
    | (Ret obj, s', l') =>
        (Ret (0%Z, obj,
              [(0.4 * total_mass s' - computemass (T (conn s')) (T (X s')) x)%R]),
         s', l' ++ [Call_computemass (T (conn s')) (T (X s')) x])
    | (Raise e, s', l') => (Raise e, s', l')
    end.
Proof.
  unfold evalObjCon. unfold bind at 1.
  by destruct (compliance x s l) as [[[obj|e] s'] l'].
Qed.

Lemma evalObjConGradient_run (x g : rvec) (A : rmat) (s : Self) (l : list call) :
  evalObjConGradient x g A s l =
    match compliance_grad x s l with
    | (Ret dcdx, s', l') =>
        match assign_all g dcdx with
        | Raise e => (Raise e, s', l')
        | Ret g' =>
            let dmdx := computemassderiv (T (conn s')) (T (X s')) (zeros_like x) in
            let l'' := l' ++ [Call_computemassderiv (T (conn s')) (T (X s'))
                                (zeros_like x)] in
            (outcome_bind (getrow A 0) (λ A0,
               outcome_bind (assign_all A0 (Ropp <$> dmdx)) (λ A0',
                 Ret (0%Z, g', <[0%nat := A0']> A))),
             s', l'')
        end
    | (Raise e, s', l') => (Raise e, s', l')
    end.
Proof.
  unfold evalObjConGradient. unfold bind at 1.
  destruct (compliance_grad x s l) as [[[dcdx|e] s'] l']; [|done].
  unfold bind at 1. unfold lift at 1.
  destruct (assign_all g dcdx) as [g'|e]; [|done].
  unfold bind at 1. rewrite mass_grad_run.
  unfold bind, lift, ret. simpl.
  destruct (getrow A 0) as [A0|e]; [|done]. simpl.
  by destruct (assign_all A0 _).
Qed.
End Methods.

(** ** What a sequence of calls preserves *)

Lemma same_setup_refl (s : Self) : same_setup s s.
Proof. by repeat split. Qed.

Lemma same_setup_trans (s1 s2 s3 : Self) :
  same_setup s1 s2 → same_setup s2 s3 → same_setup s1 s3.
Proof. unfold same_setup. intros H12 H23. destruct_and!. repeat split; congruence. Qed.

Lemma method_call_ok_setup (s s' : Self) (c : call) :
  same_setup s s' → method_call_ok s' c → method_call_ok s c.
Proof.
  unfold same_setup. intros Hs. destruct_and!.
  destruct c; simpl; try done. intros [-> ->]. done.
Qed.

Section Frames.
Context `{PS : PlaneStress} `{SP : SciPy}.

Lemma compliance_frame (x : rvec) (s : Self) (l : list call) :
  frame s l (after (compliance x s l)).
Proof.
  rewrite compliance_run. unfold after, frame.
  destruct (sp_dot (F s) x) as [rho|e]; simpl.
  - destruct (factorized _) as [lu|]; simpl.
    + split; [by repeat split|]. eexists. rewrite <- app_assoc.
      split; [done|]. by repeat constructor.
    + split; [by repeat split|]. eexists. split; [done|]. by repeat constructor.
  - split; [by repeat split|]. exists []. by rewrite app_nil_r.
Qed.

Lemma compliance_grad_frame (x : rvec) (s : Self) (l : list call) :
  frame s l (after (compliance_grad x s l)).
Proof.
  rewrite compliance_grad_run. unfold after, frame.
  destruct (sp_dot (F s) x) as [rho|e]; simpl.
  - destruct (u s) as [disp|]; simpl.
    + split; [by repeat split|]. eexists. split; [done|]. by repeat constructor.
    + split; [by repeat split|]. exists []. by rewrite app_nil_r.
  - split; [by repeat split|]. exists []. by rewrite app_nil_r.
Qed.

Lemma frame_step (s : Self) (l : list call) (s1 : Self) (l1 : list call)
    (sl2 : Self * list call) :
  frame s l (s1, l1) → frame s1 l1 sl2 → frame s l sl2.
Proof.
  intros [Hs1 (k1 & Hl1 & Hk1)] [Hs2 (k2 & Hl2 & Hk2)]. simpl in *.
  split; [by eapply same_setup_trans|].
  exists (k1 ++ k2). rewrite Hl2, Hl1, app_assoc. split; [done|].
  apply Forall_app. split; [done|].
  eapply Forall_impl; [done|]. intros c. by apply method_call_ok_setup.
Qed.

Lemma exec_frame (m : method) (s : Self) (l : list call) :
  frame s l (exec m (s, l)).
Proof.
  destruct m as [x|x|x|x|x lb ub|x|x g A]; simpl.
  - rewrite mass_run. split; [by repeat split|].
    eexists. split; [done|]. by repeat constructor.
  - rewrite mass_grad_run. split; [by repeat split|].
    eexists. split; [done|]. by repeat constructor.
  - apply compliance_frame.
  - apply compliance_grad_frame.
  - split; [by repeat split|]. exists []. by rewrite app_nil_r.
  - rewrite evalObjCon_run. pose proof (compliance_frame x s l) as Hc.
    destruct (compliance x s l) as [[[obj|e] s'] l']; [|done].
    eapply frame_step; [done|]. unfold after; simpl.
    split; [by repeat split|]. eexists. split; [done|]. by repeat constructor.
  - rewrite evalObjConGradient_run. pose proof (compliance_grad_frame x s l) as Hc.
    destruct (compliance_grad x s l) as [[[dcdx|e] s'] l']; [|done].
    destruct (assign_all g dcdx) as [g'|e]; [|done].
    eapply frame_step; [done|]. unfold after; simpl.
    split; [by repeat split|]. eexists. split; [done|]. by repeat constructor.
Qed.

Lemma run_frame (ms : list method) :
  ∀ (s : Self) (l : list call), frame s l (run ms (s, l)).
Proof.
  induction ms as [|m ms IH]; intros s l; simpl.
  - split; [apply same_setup_refl|]. exists []. by rewrite app_nil_r.
  - pose proof (exec_frame m s l) as Hm.
    destruct (exec m (s, l)) as [s1 l1]. eapply frame_step; [done|]. apply IH.
Qed.
End Frames.

(** ** The example mesh at work *)

Lemma brute_force_ball_valid (X : rmat) (r : R) :
  ball_query_valid X (brute_force_ball X r).
Proof.
  unfold brute_force_ball. split.
  - by rewrite length_fmap, length_seq.
  - intros i rlist j Hi Hj. rewrite list_lookup_fmap in Hi.
    destruct (seq 0 (length X) !! i); simplify_eq/=.
    apply list_elem_of_filter in Hj as [_ Hj]. apply elem_of_seq in Hj. lia.
Qed.

Lemma brute_force_ball_ok (X : rmat) (r : R) :
  ball_query_ok X r (brute_force_ball X r).
Proof.
  split; [apply brute_force_ball_valid|].
  intros i rlist Hi. unfold brute_force_ball in Hi. rewrite list_lookup_fmap in Hi.
  destruct (seq 0 (length X) !! i) as [i'|] eqn:Hseq; simplify_eq/=.
  apply lookup_seq in Hseq as [-> _]. split.
  - apply NoDup_filter, NoDup_seq.
  - intros j Hj Hd. apply list_elem_of_filter. split; [simpl in *; lra|].
    apply elem_of_seq. lia.
Qed.

Lemma diag_in_place : nzpattern_in_place (PS := diag_plane_stress).
Proof. intros cn vs rp cl. simpl. by rewrite length_fmap, length_seq. Qed.

Lemma ex_pattern (l0 : list call) :
  init_pattern (PS := diag_plane_stress) ex_conn ex_vars tt l0 =
    (Ret (4, 4, [0; 1; 2; 3; 4], [0; 1; 2; 3]), tt,
     l0 ++ [Call_ParOpt_init 4 1;
            Call_computenzpattern (T ex_conn) (T ex_vars) [0; 0; 0; 0; 0] [0];
            Call_computenzpattern (T ex_conn) (T ex_vars) [0; 1; 2; 3; 4]
              [0; 0; 0; 0]])%Z.
Proof.
  unfold init_pattern, call_computenzpattern, bind, lift, emit, ret. simpl.
  by rewrite <- !app_assoc.
Qed.

(** On the example mesh the constructor returns for every radius. *)
Lemma ex_init_returns (r0 : R) :
  ∃ Fm,
    filter_loop ex_X r0 (lil_matrix 4 4) 0 (brute_force_ball ex_X r0) = Ret Fm ∧
    ex_init r0 =
      (Ret (mkSelf ex_conn ex_vars ex_X ex_force 3 ex_C 4 4
              [0; 1; 2; 3; 4]%Z [0; 1; 2; 3]%Z [0; 0; 0; 0]%R
              (computemass (PlaneStress := diag_plane_stress)
                 (T ex_conn) (T ex_X) [1; 1; 1; 1]%R)
              Fm None None None), tt,
       [Call_ParOpt_init 4 1;
        Call_computenzpattern (T ex_conn) (T ex_vars) [0; 0; 0; 0; 0]%Z [0%Z];
        Call_computenzpattern (T ex_conn) (T ex_vars) [0; 1; 2; 3; 4]%Z
          [0; 0; 0; 0]%Z;
        Call_computemass (T ex_conn) (T ex_X) [1; 1; 1; 1]%R;
        Call_query_ball_tree ex_X r0]).
Proof.
  destruct (filter_matrix_spec ex_X r0 4 (brute_force_ball ex_X r0))
    as (Fm & Hloop & _); [apply brute_force_ball_valid | simpl; lia |].
  exists Fm. split; [exact Hloop|]. unfold ex_init. apply init_iff.
  eexists _, _, _, Fm. split; [apply ex_pattern|].
  split; [reflexivity|]. split; [exact Hloop|]. split; reflexivity.
Qed.

(** With the radius 0 the example evaluator is built with an empty
    filter. *)
Lemma ex_init_zero :
  ∃ s l, ex_init 0 = (Ret s, tt, l) ∧ F s = lil_matrix 4 4.
Proof.
  destruct (ex_init_returns 0) as (Fm & Hloop & Hinit).
  rewrite filter_matrix_nonpos in Hloop;
    [|lra|apply brute_force_ball_valid|simpl; lia].
  injection Hloop as <-. by eexists _, _.
Qed.

Lemma row_dot_singleton (j : nat) (v : R) (x : rvec) :
  row_dot {[j := v]} x = (v * default 0 (x !! j) + 0)%R.
Proof. unfold row_dot. by rewrite map_fold_singleton. Qed.

Lemma ex_self_filtered (a b c d : R) :
  sp_dot (F ex_self) [a; b; c; d] = Ret [a; b; c; d].
Proof.
  rewrite sp_dot_ok by done. unfold sp_mul. simpl.
  rewrite !row_dot_singleton. simpl. f_equal. repeat f_equal; lra.
Qed.

(** On the example evaluator, a solid design is solved, a void design is
    singular. *)
Lemma ex_compliance_returns :
  ∃ c s1 l1,
    compliance (PS := diag_plane_stress) (SP := brute_scipy)
      [0.95; 0.95; 0.95; 0.95]%R ex_self [] = (Ret c, s1, l1).
Proof.
  rewrite compliance_run, ex_self_filtered. cbn zeta.
  assert (Hlu : factorized (SciPy := brute_scipy)
            (assembled_K (PS := diag_plane_stress) ex_self
               [0.95; 0.95; 0.95; 0.95]%R)
          = Some (λ f, zip_with Rdiv f [0.95; 0.95; 0.95; 0.95]%R)).
  { simpl. unfold diag_factorized. simpl.
    destruct (decide _) as [Hin|_]; [|done].
    repeat (apply elem_of_cons in Hin as [Hin|Hin]; [lra|]).
    by apply elem_of_nil in Hin. }
  rewrite Hlu. by eexists _, _, _.
Qed.

Lemma ex_singular :
  factorized (SciPy := brute_scipy)
    (assembled_K (PS := diag_plane_stress) ex_self [0; 0; 0; 0]%R) = None.
Proof.
  simpl. unfold diag_factorized. simpl.
  destruct (decide _) as [_|Hnin]; [done|].
  exfalso. apply Hnin. apply elem_of_cons. by left.
Qed.

Lemma ex_distance_01 : node_distance ex_X 0 1 = 1%R.
Proof.
  unfold node_distance, distance, vdot, vsub. simpl.
  replace ((0 - 1) * (0 - 1) + ((0 - 0) * (0 - 0) + 0))%R with 1%R by lra.
  apply sqrt_1.
Qed.

Lemma ex_evalObjCon_returns :
  ∃ r s' l',
    evalObjCon (PS := diag_plane_stress) (SP := brute_scipy)
      [0.95; 0.95; 0.95; 0.95]%R ex_self [] = (Ret r, s', l').
Proof.
  destruct ex_compliance_returns as (c & s1 & l1 & Hrun).
  rewrite evalObjCon_run, Hrun. by eexists _, _, _.
Qed.

(** ** The claims *)

Section Claims.
Context `{PS : PlaneStress} `{SP : SciPy}.

(** C1 (amended): for a positive radius [r0], once the constructor has
    returned, every row of [F] that belongs to a node with coordinates
    (a row [i] below the number of rows of [X]) has only positive stored
    entries, which sum to 1; every entry of [F], in whatever row, is
    non-negative; and no sequence of method calls changes [F]. *)
Theorem C1_filter_rows_stochastic (cn vs : imat) (xs : rmat) (frc : rvec)
    (r0 q : R) (cm : rmat) (s : Self) (l : list call) :
  (0 < r0)%R →
  ball_query_ok xs r0 (query_ball_tree xs r0) →
  __init__ cn vs xs frc r0 q cm tt [] = (Ret s, tt, l) →
  (∀ i, i < length xs →
     ∃ row, sp_rows (F s) !! i = Some row ∧
       (∀ j v, row !! j = Some v → (0 < v)%R) ∧ row_sum row = 1%R) ∧
  (∀ i j, (0 <= sp_get (F s) i j)%R) ∧
  (∀ ms, F (run ms (s, l)).1 = F s).
Proof.
  intros Hr Hok Hinit.
  apply init_iff in Hinit as (pat & l1 & rho & Fm & _ & _ & Hloop & -> & ->).
  simpl.
  assert (Hrow : ∀ i, i < length xs →
     ∃ row, sp_rows Fm !! i = Some row ∧
       (∀ j v, row !! j = Some v → (0 < v)%R) ∧ row_sum row = 1%R).
  { intros i Hi.
    destruct (filter_matrix_entries _ _ _ _ _ Hok Hloop i Hi)
      as (row & Hrow & Hentries & Hsum).
    pose proof (raw_total_pos xs r0 i Hr Hi) as Htot.
    exists row. split; [done|]. split.
    - intros j v. rewrite Hentries. destruct (decide _) as [[_ Hd]|]; [|done].
      intros [= <-]. apply Rdiv_lt_0_compat; [by apply raw_weight_pos|done].
    - rewrite Hsum. apply Rsum_normalize. fold (raw_total xs r0 i). lra. }
  split; [done|]. split.
  - intros i j. destruct (decide (i < length xs)) as [Hi|Hi].
    + destruct (Hrow i Hi) as (row & Hlook & Hpos & _).
      rewrite (sp_get_row _ _ _ _ Hlook).
      destruct (row !! j) as [v|] eqn:Hv; simpl; [|lra].
      apply Rlt_le. by eapply Hpos.
    + destruct Hok as [Hvalid _].
      rewrite (filter_matrix_outside _ _ _ _ _ i j Hvalid Hloop) by lia. lra.
  - intros ms. match goal with |- F (run ms (?s0, ?l0)).1 = _ =>
      destruct (run_frame ms s0 l0) as [Hsetup _] end.
    unfold same_setup in Hsetup. tauto.
Qed.

(** C2 (amended): once the constructor has returned, for nodes [i], [j]
    with coordinates: the entry [F[i,j]] is zero when their distance [d]
    is at least [r0]; when [d < r0] it is the weight [(r0 − d)/r0]
    divided by the sum of these weights over all nodes closer than [r0]
    to node [i]; and for a positive radius node [i] itself contributes
    with the weight 1 before normalisation, and row [i] sums to 1. *)
Theorem C2_filter_entries (cn vs : imat) (xs : rmat) (frc : rvec)
    (r0 q : R) (cm : rmat) (s : Self) (l : list call) :
  ball_query_ok xs r0 (query_ball_tree xs r0) →
  __init__ cn vs xs frc r0 q cm tt [] = (Ret s, tt, l) →
  ∀ i j, i < length xs → j < length xs →
    let d := node_distance xs i j in
    let total := Rsum ((λ k, ((r0 - node_distance xs i k) / r0)%R)
                         <$> neighbours xs r0 i) in
    ((r0 <= d)%R → sp_get (F s) i j = 0%R) ∧
    ((d < r0)%R → sp_get (F s) i j = ((r0 - d) / r0 / total)%R) ∧
    ((0 < r0)%R →
       sp_get (F s) i i = (1 / total)%R ∧
       ∃ row, sp_rows (F s) !! i = Some row ∧ row_sum row = 1%R).
Proof.
  intros Hok Hinit i j Hi Hj d total.
  apply init_iff in Hinit as (pat & l1 & rho & Fm & _ & _ & Hloop & -> & ->).
  simpl.
  destruct (filter_matrix_entries _ _ _ _ _ Hok Hloop i Hi)
    as (row & Hrow & Hentries & Hsum).
  change total with (raw_total xs r0 i).
  rewrite !(sp_get_row _ _ _ _ Hrow), !Hentries.
  split; [|split].
  - intros Hd. rewrite decide_False; [done|]. intros [_ Hlt]. unfold d in Hd. lra.
  - intros Hd. by rewrite decide_True.
  - intros Hr. split.
    + rewrite decide_True by (rewrite node_distance_self; done).
      simpl. by rewrite raw_weight_self.
    + exists row. split; [done|]. rewrite Hsum. apply Rsum_normalize.
      pose proof (raw_total_pos xs r0 i Hr Hi). unfold raw_total in *. lra.
Qed.

(** C3: after a [compliance] call has returned, [compliance_grad(x)], for
    any [x] of the right length (not necessarily the one [compliance]
    was called with), makes a single external call, the derivative kernel
    with the cached displacement in both state slots, hence no
    factorisation and no solve; it leaves the object unchanged and
    returns the negated product of the transposed filter with the
    kernel's output. *)
Theorem C3_compliance_grad_reuses_u (x0 : rvec) (s0 : Self) (l0 : list call)
    (c : R) (s1 : Self) (l1 : list call) :
  compliance x0 s0 l0 = (Ret c, s1, l1) →
  ∃ lu, factorized (assembled_K s0 (sp_mul (F s0) x0)) = Some lu ∧
    u s1 = Some (lu (force s0)) ∧
    ∀ (x : rvec) (l : list call),
      let disp := lu (force s0) in
      let rho := sp_mul (F s1) x in
      let dcdrho :=
        computekmatderiv (T (conn s1)) (T (vars s1)) (T (X s1)) (qval s1)
          (T (C s1)) rho disp disp (zeros_like x) in
      length x = (sp_shape (F s1)).2 →
      length dcdrho = (sp_shape (F s1)).1 →
      compliance_grad x s1 l =
        (Ret (Ropp <$> sp_mul (sp_transpose (F s1)) dcdrho), s1,
         l ++ [Call_computekmatderiv (T (conn s1)) (T (vars s1)) (T (X s1))
                 (qval s1) (T (C s1)) rho disp disp (zeros_like x)]).
Proof.
  rewrite compliance_run. unfold sp_dot.
  destruct (decide _) as [Hx0|]; [|done]. simpl.
  destruct (factorized _) as [lu|] eqn:Hlu; [|done].
  intros [= _ Hs1 _]. exists lu. split; [done|].
  assert (Hu : u s1 = Some (lu (force s0))) by (by subst s1).
  split; [done|]. intros x l Hx Hd.
  rewrite compliance_grad_run, sp_dot_ok, Hu by done.
  unfold kernel_dKdrho, Call_derivative. by rewrite sp_dot_ok.
Qed.

(** C4: when the constructor returns, [total_mass] is the value of the
    mass kernel for the all-ones density, computed by the only mass-kernel
    call the constructor makes; no later method call changes it; and
    whenever [compliance(x)] returns [obj], [evalObjCon(x)] returns the
    flag 0, the objective [obj] and the one constraint
    [0.4·total_mass − mass(x)] (when [compliance(x)] raises, so does
    [evalObjCon(x)]). *)
Theorem C4_evalObjCon_objective_and_constraint (cn vs : imat) (xs : rmat)
    (frc : rvec) (r0 q : R) (cm : rmat) (s : Self) (l : list call) :
  __init__ cn vs xs frc r0 q cm tt [] = (Ret s, tt, l) →
  let ones := replicate (Z.to_nat (nnodes s)) 1%R in
  total_mass s = computemass (T cn) (T xs) ones ∧
  filter is_mass_call l = [Call_computemass (T cn) (T xs) ones] ∧
  ∀ (ms : list method) (x : rvec),
    let sl := run ms (s, l) in
    total_mass sl.1 = total_mass s ∧
    match compliance x sl.1 sl.2 with
    | (Ret obj, s', l') =>
        ∃ m l'', mass x s' l' = (Ret m, s', l'') ∧
          evalObjCon x sl.1 sl.2 =
            (Ret (0%Z, obj, [(0.4 * total_mass s - m)%R]), s', l'')
    | (Raise e, s', l') => evalObjCon x sl.1 sl.2 = (Raise e, s', l')
    end.
Proof.
  intros Hinit ones.
  apply init_iff in Hinit as (pat & l1 & rho & Fm & Hpat & Hones & _ & -> & ->).
  apply init_pattern_inv in Hpat as (vmax & cmax & k & Hpat). simpl in Hpat.
  destruct Hpat as (_ & _ & _ & _ & _ & _ & _ & _ & ->).
  unfold np_ones, np_full in Hones. destruct (decide _); [done|].
  injection Hones as <-. simpl in ones. fold ones.
  split; [done|]. split; [done|].
  intros ms x. set (s := mkSelf _ _ _ _ _ _ _ _ _ _ _ _ _ _ _ _).
  set (l := (_ ++ _) ++ _). intros sl.
  destruct (run_frame ms s l) as [Hsetup _]. fold sl in Hsetup.
  assert (Htm : total_mass sl.1 = total_mass s) by (unfold same_setup in Hsetup; tauto).
  split; [done|]. rewrite evalObjCon_run.
  pose proof (compliance_frame x sl.1 sl.2) as [Hc _].
  destruct (compliance x sl.1 sl.2) as [[[obj|e] s'] l']; [|done].
  unfold after in Hc; simpl in Hc.
  assert (Htm' : total_mass s' = total_mass sl.1) by (unfold same_setup in Hc; tauto).
  eexists _, _. rewrite mass_run. split; [done|]. by rewrite Htm', Htm.
Qed.

(** C5 (as the code has it): the fail flag carries no information: it is
    0 whenever [evalObjCon] or [evalObjConGradient] returns.  A failed
    factorisation of the assembled matrix leaves [evalObjCon] by the
    exception, after one assembly and one factorisation attempt (no
    retry), and [evalObjConGradient] never calls the solver. *)
Theorem C5_fail_flag_is_constant (x : rvec) (s : Self) (l : list call) :
  (∀ r s' l', evalObjCon x s l = (Ret r, s', l') → r.1.1 = 0%Z) ∧
  (∀ g A r s' l', evalObjConGradient x g A s l = (Ret r, s', l') → r.1.1 = 0%Z) ∧
  (∀ rho, sp_dot (F s) x = Ret rho → factorized (assembled_K s rho) = None →
     evalObjCon x s l =
       (Raise RuntimeError,
        set_Kmat (assembled_K s rho) (set_Kvals (assembled_Kvals s rho) s),
        l ++ [Call_assembly s rho; Call_factorized (assembled_K s rho)])) ∧
  (∀ g A, filter is_solver_call (evalObjConGradient x g A s l).2
          = filter is_solver_call l).
Proof.
  split; [|split; [|split]].
  - intros r s' l'. rewrite evalObjCon_run.
    destruct (compliance x s l) as [[[obj|e] s1] l1]; [|done].
    by intros [= <- _ _].
  - intros g A r s' l'. rewrite evalObjConGradient_run.
    destruct (compliance_grad x s l) as [[[dcdx|e] s1] l1]; [|done].
    destruct (assign_all g dcdx) as [g'|e]; [|done]. simpl.
    destruct (getrow A 0) as [A0|e]; [|done]. simpl.
    destruct (assign_all A0 _) as [A0'|e]; [|done]. simpl.
    by intros [= <- _ _].
  - intros rho Hrho Hsing. rewrite evalObjCon_run, compliance_run, Hrho.
    cbn zeta. by rewrite Hsing.
  - intros g A. rewrite evalObjConGradient_run, compliance_grad_run.
    destruct (sp_dot (F s) x) as [rho|e]; [|done].
    destruct (u s) as [disp|]; [|done].
    destruct (outcome_bind _ _) as [dcdx|e]; simpl.
    + destruct (assign_all g dcdx) as [g'|e]; simpl.
      * rewrite !filter_app. simpl. by rewrite !app_nil_r.
      * rewrite !filter_app. simpl. by rewrite !app_nil_r.
    + rewrite !filter_app. simpl. by rewrite !app_nil_r.
Qed.

(** C6 (amended): the constructor never looks at the sign of [r0]: if it
    returns for some radius [r1], it also returns, on the same other
    inputs, for any radius [r0 ≤ 0], with the same sizes, pattern and
    total mass; the filter matrix of that evaluator has no non-zero
    entry. *)
Theorem C6_nonpositive_radius_accepted (cn vs : imat) (xs : rmat) (frc : rvec)
    (r0 r1 q : R) (cm : rmat) (s1 : Self) (l1 : list call) :
  (r0 <= 0)%R →
  ball_query_valid xs (query_ball_tree xs r0) →
  ball_query_valid xs (query_ball_tree xs r1) →
  __init__ cn vs xs frc r1 q cm tt [] = (Ret s1, tt, l1) →
  ∃ s0 l0, __init__ cn vs xs frc r0 q cm tt [] = (Ret s0, tt, l0) ∧
    (∀ i j, sp_get (F s0) i j = 0%R) ∧
    nvars s0 = nvars s1 ∧ nnodes s0 = nnodes s1 ∧
    rowp s0 = rowp s1 ∧ cols s0 = cols s1 ∧ total_mass s0 = total_mass s1.
Proof.
  intros Hr Hv0 Hv1 Hinit.
  destruct (init_nonpositive_radius _ _ _ _ _ _ _ _ _ _ Hr Hv0 Hv1 Hinit)
    as (s0 & l0 & Hinit0 & HF & Hrest).
  exists s0, l0. split; [done|]. split; [|done].
  intros i j. rewrite HF. apply sp_get_lil_matrix.
Qed.

(** C7: [mass(x)] hands the raw design vector [x] to the mass kernel: it
    returns the kernel's value for [x], makes this one call and no other,
    and never applies [F].  [compliance(x)], in contrast, filters first:
    its first kernel call is the stiffness assembly, with the density
    [F·x], and with an [x] that [F] cannot be applied to it stops before
    any kernel call. *)
Theorem C7_mass_is_unfiltered (x : rvec) (s : Self) (l : list call) :
  mass x s l =
    (Ret (computemass (T (conn s)) (T (X s)) x), s,
     l ++ [Call_computemass (T (conn s)) (T (X s)) x]) ∧
  match sp_dot (F s) x with
  | Ret rho =>
      rho = sp_mul (F s) x ∧
      ∃ l', (compliance x s l).2 =
              l ++ Call_computekmat (T (conn s)) (T (vars s)) (T (X s)) (qval s)
                     (T (C s)) (sp_mul (F s) x) (rowp s) (cols s) (Kvals s) :: l'
  | Raise e => compliance x s l = (Raise e, s, l)
  end.
Proof.
  split; [apply mass_run|]. rewrite compliance_run.
  unfold sp_dot. destruct (decide _) as [Hx|Hx]; [|done].
  split; [done|]. simpl. destruct (factorized _); simpl; eexists.
  - rewrite <- app_assoc. simpl. done.
  - done.
Qed.

(** C8: [mass_grad] is constant in the values of its argument: two design
    vectors of the same shape give the same result (and the same kernel
    call), because only the shape of [x] is used, for the zero buffer the
    kernel fills from the connectivity and the coordinates. *)
Theorem C8_mass_grad_constant (x1 x2 : rvec) (s : Self) (l : list call) :
  length x1 = length x2 →
  mass_grad x1 s l = mass_grad x2 s l ∧
  mass_grad x1 s l =
    (Ret (computemassderiv (T (conn s)) (T (X s)) (replicate (length x1) 0%R)), s,
     l ++ [Call_computemassderiv (T (conn s)) (T (X s))
             (replicate (length x1) 0%R)]).
Proof.
  intros Hlen. rewrite !mass_grad_run. unfold zeros_like. by rewrite Hlen.
Qed.

(** C9 (amended): the constructor calls the pattern kernel exactly twice.
    The first call gets the zeroed row-pointer buffer of length
    [nvars + 1] and a column buffer of ONE element; the integer it
    returns is the length of the zeroed column buffer of the second
    call, which also gets the row pointers as the first call left them.
    [rowp] is the row-pointer buffer after the second call (of length
    [nvars + 1] for a kernel that writes in place), [cols] has
    [rowp[-1]] entries, the first [rowp[-1]] column indices of the second
    call when there are that many.  No method calls the pattern kernel
    again or changes [rowp] or [cols], and every stiffness assembly is
    called with exactly this pair. *)
Theorem C9_pattern_built_once (cn vs : imat) (xs : rmat) (frc : rvec)
    (r0 q : R) (cm : rmat) (s : Self) (l : list call) :
  __init__ cn vs xs frc r0 q cm tt [] = (Ret s, tt, l) →
  let rowp0 := replicate (Z.to_nat (nvars s + 1)) 0%Z in
  let nz1 := computenzpattern (T cn) (T vs) rowp0 [0%Z] in
  let cols_temp0 := replicate (Z.to_nat nz1.1.1) 0%Z in
  let nz2 := computenzpattern (T cn) (T vs) nz1.1.2 cols_temp0 in
  np_max vs = Ret (nvars s - 1)%Z ∧
  filter is_nzpattern_call l =
    [Call_computenzpattern (T cn) (T vs) rowp0 [0%Z];
     Call_computenzpattern (T cn) (T vs) nz1.1.2 cols_temp0] ∧
  rowp s = nz2.1.2 ∧
  (nzpattern_in_place → length (rowp s) = Z.to_nat (nvars s + 1)) ∧
  (∃ rowp_last, last (rowp s) = Some rowp_last ∧
     length (cols s) = Z.to_nat rowp_last ∧
     (Z.to_nat rowp_last ≤ length nz2.2 →
        cols s = take (Z.to_nat rowp_last) nz2.2)) ∧
  ∀ ms, let sl := run ms (s, l) in
    rowp sl.1 = rowp s ∧ cols sl.1 = cols s ∧
    ∃ l', sl.2 = l ++ l' ∧ filter is_nzpattern_call l' = [] ∧
      ∀ cn' vs' xs' q' cm' rho rp cl kv,
        Call_computekmat cn' vs' xs' q' cm' rho rp cl kv ∈ l' →
        rp = rowp s ∧ cl = cols s.
Proof.
  intros Hinit.
  apply init_iff in Hinit as (pat & l1 & rho & Fm & Hpat & _ & _ & -> & ->).
  apply init_pattern_inv in Hpat as (vmax & cmax & k & Hpat). simpl in Hpat.
  destruct pat as [[[nv nn] rp] cl].
  destruct Hpat as (Hvmax & _ & Hnv & Hnc & Hlast & Hk & Hassign & [= -> -> ->] & ->).
  simpl. split; [by rewrite Hvmax, Z.add_simpl_r|].
  split; [done|]. split; [done|]. split; [|split].
  - intros Hplace. rewrite !Hplace. by rewrite length_replicate.
  - exists k. split; [done|]. unfold assign_all in Hassign.
    rewrite length_replicate in Hassign.
    destruct (decide _) as [Heq|Hne].
    + injection Hassign as <-. split; [done|]. done.
    + destruct (take _ _) as [|a [|? ?]] eqn:Htake; simplify_eq.
      split; [by rewrite length_replicate|]. intros Hlen.
      exfalso. apply Hne. rewrite <- Htake, length_take. lia.
  - intros ms. match goal with |- context [run ms (?s0, ?l0)] =>
      destruct (run_frame ms s0 l0) as [Hsetup (l' & Hl' & Hcalls)] end.
    unfold same_setup in Hsetup. simpl in Hsetup.
    split; [tauto|]. split; [tauto|].
    exists l'. split; [done|]. split.
    + clear Hl'. induction Hcalls as [|c l' Hc _ IH]; [done|].
      rewrite filter_cons, IH. by destruct c.
    + intros cn' vs' xs' q' cm' rho' rp' cl' kv Hin.
      rewrite Forall_forall in Hcalls. by apply (Hcalls _ Hin).
Qed.

(** C10: [mass(x)] and [mass_grad(x)] leave every attribute of the object
    as it was, the cache [Kvals], [Kmat], [LU], [u] included; so a mass
    or mass-gradient evaluation between [compliance] and
    [compliance_grad] changes neither the result nor the final state of
    the gradient call. *)
Theorem C10_mass_calls_keep_state (x : rvec) (s : Self) (l : list call) :
  (mass x s l).1.2 = s ∧ (mass_grad x s l).1.2 = s ∧
  ∀ (y : rvec) (l' l'' : list call),
    (compliance_grad y (mass x s l).1.2 l').1 = (compliance_grad y s l'').1 ∧
    (compliance_grad y (mass_grad x s l).1.2 l').1 = (compliance_grad y s l'').1.
Proof.
  rewrite mass_run, mass_grad_run. simpl. split; [done|]. split; [done|].
  intros y l' l''. rewrite !compliance_grad_run.
  split; destruct (sp_dot (F s) y); try done; by destruct (u s).
Qed.

End Claims.

(** ** The claims on the example mesh *)

(** C1, refuted as stated: with the radius 0 the constructor returns an
    evaluator whose filter row of node 0 is empty; it sums to 0, not
    to 1. *)
Lemma C1_counterexample :
  ∃ s l, ex_init 0 = (Ret s, tt, l) ∧
    ∃ row, sp_rows (F s) !! 0 = Some row ∧ row_sum row ≠ 1%R.
Proof.
  destruct ex_init_zero as (s & l & Hinit & HF).
  exists s, l. split; [done|]. exists ∅. rewrite HF. split; [done|].
  rewrite row_sum_empty. lra.
Qed.

Lemma C1_witness :
  (0 < 3 / 2)%R ∧
  ball_query_ok ex_X (3 / 2) (brute_force_ball ex_X (3 / 2)) ∧
  ∃ s l, ex_init (3 / 2) = (Ret s, tt, l) ∧
    (∀ i, i < length ex_X →
       ∃ row, sp_rows (F s) !! i = Some row ∧
         (∀ j v, row !! j = Some v → (0 < v)%R) ∧ row_sum row = 1%R) ∧
    (∀ i j, (0 <= sp_get (F s) i j)%R) ∧
    (∀ ms, F (run (PS := diag_plane_stress) (SP := brute_scipy) ms (s, l)).1 = F s).
Proof.
  assert (Hr : (0 < 3 / 2)%R) by lra.
  split; [exact Hr|]. split; [apply brute_force_ball_ok|].
  destruct (ex_init_returns (3 / 2)) as (Fm & _ & Hinit).
  eexists _, _. split; [exact Hinit|].
  exact (C1_filter_rows_stochastic (PS := diag_plane_stress) (SP := brute_scipy)
           _ _ _ _ _ _ _ _ _ Hr (brute_force_ball_ok ex_X (3 / 2)) Hinit).
Defined.

(** C2, refuted as stated: with the radius 0 node 0 does not contribute
    to its own row: the distance 0 to itself is not below the radius, and
    the diagonal entry of the filter is 0. *)
Lemma C2_counterexample :
  ∃ s l, ex_init 0 = (Ret s, tt, l) ∧
    node_distance ex_X 0 0 = 0%R ∧ sp_get (F s) 0 0 = 0%R.
Proof.
  destruct ex_init_zero as (s & l & Hinit & HF).
  exists s, l. split; [done|]. split; [apply node_distance_self|].
  rewrite HF. apply sp_get_lil_matrix.
Qed.

Lemma C2_witness :
  ball_query_ok ex_X 1 (brute_force_ball ex_X 1) ∧
  ∃ s l, ex_init 1 = (Ret s, tt, l) ∧
    let total := Rsum ((λ k, ((1 - node_distance ex_X 0 k) / 1)%R)
                         <$> neighbours ex_X 1 0) in
    ((1 <= node_distance ex_X 0 1)%R ∧ sp_get (F s) 0 1 = 0%R) ∧
    ((node_distance ex_X 0 0 < 1)%R ∧
       sp_get (F s) 0 0 = ((1 - node_distance ex_X 0 0) / 1 / total)%R) ∧
    ((0 < 1)%R ∧ sp_get (F s) 0 0 = (1 / total)%R ∧
       ∃ row, sp_rows (F s) !! 0 = Some row ∧ row_sum row = 1%R).
Proof.
  split; [apply brute_force_ball_ok|].
  destruct (ex_init_returns 1) as (Fm & _ & Hinit).
  eexists _, _. split; [exact Hinit|]. intros total.
  assert (H0 : 0 < length ex_X) by (simpl; lia).
  assert (H1 : 1 < length ex_X) by (simpl; lia).
  assert (Hfar : (1 <= node_distance ex_X 0 1)%R) by (rewrite ex_distance_01; lra).
  assert (Hnear : (node_distance ex_X 0 0 < 1)%R)
    by (rewrite node_distance_self; lra).
  assert (Hr : (0 < 1)%R) by lra.
  pose proof (C2_filter_entries (PS := diag_plane_stress) (SP := brute_scipy)
                _ _ _ _ _ _ _ _ _ (brute_force_ball_ok ex_X 1) Hinit) as Hentries.
  destruct (Hentries 0 1 H0 H1) as (Hzero & _ & _).
  destruct (Hentries 0 0 H0 H0) as (_ & Hweight & Hself).
  split; [exact (conj Hfar (Hzero Hfar))|].
  split; [exact (conj Hnear (Hweight Hnear))|].
  exact (conj Hr (Hself Hr)).
Defined.

Lemma C3_witness :
  ∃ c s1 l1 lu,
    compliance (PS := diag_plane_stress) (SP := brute_scipy)
      [0.95; 0.95; 0.95; 0.95]%R ex_self [] = (Ret c, s1, l1) ∧
    u s1 = Some (lu (force ex_self)) ∧
    let x := [0.5; 0.6; 0.7; 0.8]%R in
    let dcdrho :=
      computekmatderiv (PlaneStress := diag_plane_stress)
        (T (conn s1)) (T (vars s1)) (T (X s1)) (qval s1) (T (C s1))
        (sp_mul (F s1) x) (lu (force ex_self)) (lu (force ex_self))
        (zeros_like x) in
    length x = (sp_shape (F s1)).2 ∧
    length dcdrho = (sp_shape (F s1)).1 ∧
    compliance_grad (PS := diag_plane_stress) x s1 [] =
      (Ret (Ropp <$> sp_mul (sp_transpose (F s1)) dcdrho), s1,
       [Call_computekmatderiv (T (conn s1)) (T (vars s1)) (T (X s1)) (qval s1)
          (T (C s1)) (sp_mul (F s1) x) (lu (force ex_self)) (lu (force ex_self))
          (zeros_like x)]).
Proof.
  destruct ex_compliance_returns as (c & s1 & l1 & Hrun).
  destruct (C3_compliance_grad_reuses_u _ _ _ _ _ _ Hrun) as (lu & _ & Hu & Hgrad).
  pose proof (compliance_frame (PS := diag_plane_stress) (SP := brute_scipy)
                [0.95; 0.95; 0.95; 0.95]%R ex_self []) as [Hsetup _].
  rewrite Hrun in Hsetup. unfold after, same_setup in Hsetup. simpl in Hsetup.
  destruct Hsetup as (_ & _ & _ & _ & _ & _ & _ & _ & _ & _ & _ & HFeq).
  assert (HF : sp_shape (F s1) = (4, 4)) by (by rewrite HFeq).
  exists c, s1, l1, lu. split; [exact Hrun|]. split; [exact Hu|].
  intros x dcdrho.
  assert (Hx : length x = (sp_shape (F s1)).2) by (by rewrite HF).
  assert (Hd : length dcdrho = (sp_shape (F s1)).1).
  { rewrite HF. unfold dcdrho. simpl.
    rewrite length_take, length_app. unfold zeros_like.
    rewrite !length_replicate. change (length x) with 4. lia. }
  split; [exact Hx|]. split; [exact Hd|]. exact (Hgrad x [] Hx Hd).
Defined.

Lemma C4_witness :
  ∃ s l, ex_init (3 / 2) = (Ret s, tt, l) ∧
    total_mass s =
      computemass (PlaneStress := diag_plane_stress) (T ex_conn) (T ex_X)
        (replicate (Z.to_nat (nnodes s)) 1%R) ∧
    filter is_mass_call l =
      [Call_computemass (T ex_conn) (T ex_X) (replicate (Z.to_nat (nnodes s)) 1%R)].
Proof.
  destruct (ex_init_returns (3 / 2)) as (Fm & _ & Hinit).
  eexists _, _. split; [exact Hinit|].
  destruct (C4_evalObjCon_objective_and_constraint
              (PS := diag_plane_stress) (SP := brute_scipy)
              _ _ _ _ _ _ _ _ _ Hinit) as (Htm & Hlog & _).
  split; [exact Htm | exact Hlog].
Defined.

Lemma C5_witness :
  sp_dot (F ex_self) [0; 0; 0; 0]%R = Ret [0; 0; 0; 0]%R ∧
  factorized (SciPy := brute_scipy)
    (assembled_K (PS := diag_plane_stress) ex_self [0; 0; 0; 0]%R) = None ∧
  (evalObjCon (PS := diag_plane_stress) (SP := brute_scipy)
     [0; 0; 0; 0]%R ex_self []).1.1 = Raise RuntimeError ∧
  ∃ r s' l',
    evalObjCon (PS := diag_plane_stress) (SP := brute_scipy)
      [0.95; 0.95; 0.95; 0.95]%R ex_self [] = (Ret r, s', l') ∧ r.1.1 = 0%Z.
Proof.
  split; [apply ex_self_filtered|]. split; [apply ex_singular|].
  split.
  - destruct (C5_fail_flag_is_constant (PS := diag_plane_stress) (SP := brute_scipy)
                [0; 0; 0; 0]%R ex_self []) as (_ & _ & Hraise & _).
    by rewrite (Hraise _ (ex_self_filtered 0 0 0 0) ex_singular).
  - destruct ex_evalObjCon_returns as (r & s' & l' & Hrun).
    exists r, s', l'. split; [exact Hrun|].
    destruct (C5_fail_flag_is_constant (PS := diag_plane_stress) (SP := brute_scipy)
                [0.95; 0.95; 0.95; 0.95]%R ex_self []) as (Hflag & _).
    exact (Hflag r s' l' Hrun).
Defined.

(** C5, refuted as stated: on the example evaluator the all-void design
    makes the factorisation fail, and [evalObjCon] then returns no fail
    flag at all, let alone a non-zero one: it raises. *)
Lemma C5_counterexample :
  factorized (SciPy := brute_scipy)
    (assembled_K (PS := diag_plane_stress) ex_self [0; 0; 0; 0]%R) = None ∧
  ¬ ∃ (fail : Z) (obj : R) (con : rvec) (s' : Self) (l' : list call),
      evalObjCon (PS := diag_plane_stress) (SP := brute_scipy)
        [0; 0; 0; 0]%R ex_self [] = (Ret (fail, obj, con), s', l') ∧
      fail ≠ 0%Z.
Proof.
  split; [apply ex_singular|].
  intros (fail & obj & con & s' & l' & Hrun & _).
  rewrite evalObjCon_run, compliance_run, ex_self_filtered in Hrun.
  cbn zeta in Hrun. by rewrite ex_singular in Hrun.
Qed.

(** C6, refuted as stated: the radius 0 is not rejected; the constructor
    returns an evaluator. *)
Lemma C6_counterexample :
  (0 <= 0)%R ∧ ∃ s l, ex_init 0 = (Ret s, tt, l).
Proof.
  split; [lra|]. destruct ex_init_zero as (s & l & Hinit & _). by exists s, l.
Qed.

Lemma C6_witness :
  (-1 <= 0)%R ∧
  ball_query_valid ex_X (brute_force_ball ex_X (-1)) ∧
  ball_query_valid ex_X (brute_force_ball ex_X 1) ∧
  ∃ s1 l1, ex_init 1 = (Ret s1, tt, l1) ∧
    ∃ s0 l0, ex_init (-1) = (Ret s0, tt, l0) ∧
      (∀ i j, sp_get (F s0) i j = 0%R) ∧
      nvars s0 = nvars s1 ∧ nnodes s0 = nnodes s1 ∧
      rowp s0 = rowp s1 ∧ cols s0 = cols s1 ∧ total_mass s0 = total_mass s1.
Proof.
  assert (Hr : (-1 <= 0)%R) by lra.
  split; [exact Hr|]. split; [apply brute_force_ball_valid|].
  split; [apply brute_force_ball_valid|].
  destruct (ex_init_returns 1) as (Fm & _ & Hinit).
  eexists _, _. split; [exact Hinit|].
  exact (C6_nonpositive_radius_accepted (PS := diag_plane_stress) (SP := brute_scipy)
           _ _ _ _ _ _ _ _ _ _ Hr (brute_force_ball_valid ex_X (-1))
           (brute_force_ball_valid ex_X 1) Hinit).
Defined.

Lemma C8_witness :
  length [0.95; 0.95; 0.95; 0.95]%R = length [0.1; 0.2; 0.3; 0.4]%R ∧
  mass_grad (PS := diag_plane_stress) [0.95; 0.95; 0.95; 0.95]%R ex_self [] =
    mass_grad (PS := diag_plane_stress) [0.1; 0.2; 0.3; 0.4]%R ex_self [].
Proof.
  split; [reflexivity|].
  apply (C8_mass_grad_constant (PS := diag_plane_stress)). reflexivity.
Defined.

(** C9, refuted as stated: in the first call of the pattern kernel the
    column-index buffer is not of length zero; it holds one element. *)
Lemma C9_counterexample :
  ∃ s l, ex_init 1 = (Ret s, tt, l) ∧
    ∃ cn vs rp cl,
      head (filter is_nzpattern_call l) = Some (Call_computenzpattern cn vs rp cl) ∧
      length cl = 1 ∧ length cl ≠ 0.
Proof.
  destruct (ex_init_returns 1) as (Fm & _ & Hinit).
  eexists _, _. split; [exact Hinit|].
  eexists _, _, _, _. split; [reflexivity|]. split; [reflexivity|]. simpl. lia.
Qed.

Lemma C9_witness :
  ∃ s l, ex_init 1 = (Ret s, tt, l) ∧
    filter is_nzpattern_call l =
      [Call_computenzpattern (T ex_conn) (T ex_vars) [0; 0; 0; 0; 0]%Z [0%Z];
       Call_computenzpattern (T ex_conn) (T ex_vars) [0; 1; 2; 3; 4]%Z
         [0; 0; 0; 0]%Z] ∧
    nzpattern_in_place (PS := diag_plane_stress) ∧
    length (rowp s) = Z.to_nat (nvars s + 1).
Proof.
  destruct (ex_init_returns 1) as (Fm & _ & Hinit).
  eexists _, _. split; [exact Hinit|].
  destruct (C9_pattern_built_once (PS := diag_plane_stress) (SP := brute_scipy)
              _ _ _ _ _ _ _ _ _ Hinit) as (_ & Hcalls & _ & Hlen & _).
  split; [exact Hcalls|]. split; [exact diag_in_place|].
  exact (Hlen diag_in_place).
Defined.


(** ** Further properties: the cache *)

Lemma filter_loop_shape (X : rmat) (r0 : R) (result : list (list nat)) :
  ∀ (A A' : spmatrix) (i0 : nat),
    filter_loop X r0 A i0 result = Ret A' →
    sp_shape A' = sp_shape A ∧ length (sp_rows A') = length (sp_rows A).
Proof.
  induction result as [|rl result IH]; intros A A' i0 Hrun; simpl in Hrun.
  - by injection Hrun as <-.
  - unfold filter_row in Hrun.
    destruct (filter_weights X r0 i0 rl [] []) as [[w wvars]|]; [|done].
    simpl in Hrun.
    destruct (sp_setrow A i0 wvars (normalize w)) as [A1|] eqn:Hset; [|done].
    simpl in Hrun. apply sp_setrow_inv in Hset as (_ & Hshape & Hlen).
    apply IH in Hrun as [Hshape' Hlen']. split; congruence.
Qed.

Section CacheFacts.
Context `{PS : PlaneStress} `{SP : SciPy}.

(** The object as the constructor hands it over. *)
Lemma init_fresh (cn vs : imat) (xs : rmat) (frc : rvec) (r0 q : R) (cm : rmat)
    (l0 : list call) (s : Self) (l : list call) :
  __init__ cn vs xs frc r0 q cm tt l0 = (Ret s, tt, l) →
  sp_shape (F s) = (Z.to_nat (nnodes s), Z.to_nat (nnodes s)) ∧
  length (sp_rows (F s)) = Z.to_nat (nnodes s) ∧
  Kmat s = None ∧ LU s = None ∧ u s = None ∧
  conn s = cn ∧ vars s = vs ∧ X s = xs ∧ force s = frc.
Proof.
  intros Hinit.
  apply init_iff in Hinit as (pat & l1 & rho & Fm & _ & _ & Hloop & -> & ->).
  apply filter_loop_shape in Hloop as [Hshape Hlen]. simpl in *.
  rewrite length_replicate in Hlen. by repeat split.
Qed.




(** The calls one method appends to the log: at most one factorisation,
    and only for an objective evaluation; no solve without a
    factorisation. *)
Lemma exec_solver_calls (m : method) (s : Self) (l : list call) :
  ∃ seg, (exec m (s, l)).2 = l ++ seg ∧
    length (filter is_LU_call seg) ≤ length (filter is_factorized_call seg) ∧
    length (filter is_factorized_call seg)
      ≤ (if is_objective_method m then 1 else 0).
Proof.
  assert (Hc : ∀ x, ∃ seg, (compliance x s l).2 = l ++ seg ∧
            length (filter is_LU_call seg) ≤ length (filter is_factorized_call seg) ∧
            length (filter is_factorized_call seg) ≤ 1).
  { intros x. rewrite compliance_run.
    destruct (sp_dot (F s) x) as [rho|e]; simpl.
    - destruct (factorized _) as [lu|]; simpl.
      + eexists. rewrite <- app_assoc. split; [done|]. simpl. lia.
      + eexists. split; [done|]. simpl. lia.
    - exists []. rewrite app_nil_r. split; [done|]. simpl. lia. }
  assert (Hg : ∀ x, ∃ seg, (compliance_grad x s l).2 = l ++ seg ∧
            length (filter is_LU_call seg) = 0 ∧
            length (filter is_factorized_call seg) = 0).
  { intros x. rewrite compliance_grad_run.
    destruct (sp_dot (F s) x) as [rho|e]; simpl.
    - destruct (u s) as [disp|]; simpl.
      + eexists. split; [done|]. done.
      + exists []. by rewrite app_nil_r.
    - exists []. by rewrite app_nil_r. }
  destruct m as [x|x|x|x|x lb ub|x|x g A]; unfold exec, after; cbn [fst snd].
  - rewrite mass_run. eexists. split; [done|]. simpl. lia.
  - rewrite mass_grad_run. eexists. split; [done|]. simpl. lia.
  - apply Hc.
  - destruct (Hg x) as (seg & Hseg & H1 & H2). exists seg.
    split; [done|]. lia.
  - exists []. rewrite app_nil_r. split; [done|]. simpl. lia.
  - rewrite evalObjCon_run. destruct (Hc x) as (seg & Hseg & H1 & H2).
    destruct (compliance x s l) as [[[obj|e] s'] l']; simpl in *.
    + exists (seg ++ [Call_computemass (T (conn s')) (T (X s')) x]).
      rewrite Hseg, <- app_assoc. split; [done|].
      rewrite !filter_app, !length_app. simpl. lia.
    + by exists seg.
  - rewrite evalObjConGradient_run. destruct (Hg x) as (seg & Hseg & H1 & H2).
    destruct (compliance_grad x s l) as [[[dcdx|e] s'] l']; simpl in *.
    + destruct (assign_all g dcdx) as [g'|e]; simpl.
      * exists (seg ++ [Call_computemassderiv (T (conn s')) (T (X s')) (zeros_like x)]).
        rewrite Hseg, <- app_assoc. split; [done|].
        rewrite !filter_app, !length_app. simpl. lia.
      * exists seg. split; [done|]. lia.
    + exists seg. split; [done|]. lia.
Qed.

(** X1: on the object as the constructor returns it, [compliance_grad]
    cannot be evaluated: with an [x] of the wrong length it raises
    [ValueError], with one value per node it raises [AttributeError],
    and in both cases it calls no external routine and leaves the object
    as it is. *)
Theorem grad_before_compliance_raises (cn vs : imat) (xs : rmat) (frc : rvec)
    (r0 q : R) (cm : rmat) (s : Self) (l : list call) :
  __init__ cn vs xs frc r0 q cm tt [] = (Ret s, tt, l) →
  ∀ (x : rvec) (l' : list call),
    compliance_grad x s l' =
      (Raise (if decide (length x = Z.to_nat (nnodes s))
              then AttributeError else ValueError), s, l').
Proof.
  intros Hinit x l'. apply init_fresh in Hinit as (Hshape & _ & _ & _ & Hu & _).
  rewrite compliance_grad_run. unfold sp_dot. rewrite Hshape. simpl.
  destruct (decide _); [|done]. by rewrite Hu.
Qed.

(** X2: when the factorisation fails, [compliance] has already
    overwritten the stiffness values and the stored matrix, but the solve
    closure and the displacement of the previous evaluation stay in
    place; so [compliance_grad] afterwards behaves exactly as before the
    failed call, on the old displacement. *)
Theorem failed_compliance_keeps_old_solution (x : rvec) (s : Self)
    (l : list call) (rho : rvec) :
  sp_dot (F s) x = Ret rho →
  factorized (assembled_K s rho) = None →
  let s' := (compliance x s l).1.2 in
  (compliance x s l).1.1 = Raise RuntimeError ∧
  Kvals s' = assembled_Kvals s rho ∧ Kmat s' = Some (assembled_K s rho) ∧
  LU s' = LU s ∧ u s' = u s ∧
  ∀ (y : rvec) (l' : list call),
    (compliance_grad y s' l').1.1 = (compliance_grad y s l').1.1 ∧
    (compliance_grad y s' l').2 = (compliance_grad y s l').2.
Proof.
  intros Hrho Hsing. rewrite compliance_run, Hrho. cbn zeta. rewrite Hsing.
  simpl. repeat split; try done;
    rewrite !compliance_grad_run; simpl;
    destruct (sp_dot (F s) y); try done; by destruct (u s).
Qed.


(** X4: a sequence of method calls factorises at most once per objective
    evaluation ([compliance] or [evalObjCon]) in it, and solves at most
    as often as it factorises; the other methods never reach the
    solver. *)
Theorem one_factorization_per_objective (ms : list method) :
  ∀ (s : Self) (l : list call),
    ∃ seg, (run ms (s, l)).2 = l ++ seg ∧
      length (filter is_LU_call seg) ≤ length (filter is_factorized_call seg) ∧
      length (filter is_factorized_call seg)
        ≤ length (filter is_objective_method ms).
Proof.
  induction ms as [|m ms IH]; intros s l; simpl.
  - exists []. rewrite app_nil_r. split; [done|]. simpl. lia.
  - destruct (exec_solver_calls m s l) as (seg1 & Hseg1 & H1 & H2).
    destruct (exec m (s, l)) as [s1 l1]. simpl in Hseg1. subst l1.
    destruct (IH s1 (l ++ seg1)) as (seg2 & Hseg2 & H3 & H4).
    exists (seg1 ++ seg2). rewrite Hseg2, <- app_assoc. split; [done|].
    rewrite !filter_app, !length_app, filter_cons.
    destruct (is_objective_method m); simpl in *; lia.
Qed.

End CacheFacts.

(** ** Further properties: the filter as an averaging operator *)

Lemma row_dot_empty (x : rvec) : row_dot ∅ x = 0%R.
Proof. unfold row_dot. apply map_fold_empty. Qed.

Lemma row_dot_insert (r : gmap nat R) (j : nat) (v : R) (x : rvec) :
  r !! j = None →
  row_dot (<[j:=v]> r) x = (v * default 0 (x !! j) + row_dot r x)%R.
Proof.
  intros Hj. unfold row_dot.
  rewrite map_fold_insert_L; [done| |done]. intros. lra.
Qed.

(** A row of non-negative weights averages: the product with [x] lies
    between the smallest and the largest value of [x] at the stored
    columns, scaled by the sum of the row. *)
Lemma row_dot_bounds (x : rvec) (lo hi : R) (r : gmap nat R) :
  (∀ j v, r !! j = Some v →
     (0 <= v)%R ∧ ∃ xj, x !! j = Some xj ∧ (lo <= xj <= hi)%R) →
  (lo * row_sum r <= row_dot r x <= hi * row_sum r)%R.
Proof.
  induction r as [|j v r Hj IH] using map_ind; intros Hr.
  - rewrite row_sum_empty, row_dot_empty. lra.
  - rewrite row_sum_insert, row_dot_insert by done.
    destruct (Hr j v) as (Hv & xj & Hxj & Hlo & Hhi); [by rewrite lookup_insert_eq|].
    rewrite Hxj. simpl.
    destruct IH as [IHlo IHhi].
    { intros j' v' Hj'. apply Hr. rewrite lookup_insert_ne; [done|].
      intros ->. by rewrite Hj in Hj'. }
    split; nra.
Qed.

Lemma Rsum_ge_elem (w : rvec) (v : R) :
  Forall (λ a, (0 <= a)%R) w → v ∈ w → (v <= Rsum w)%R.
Proof.
  induction w as [|a w IH]; intros Hpos Hin.
  - by apply elem_of_nil in Hin.
  - apply Forall_cons in Hpos as [Ha Hw]. rewrite Rsum_cons.
    assert (0 <= Rsum w)%R.
    { clear -Hw. induction w as [|b w IH]; [rewrite Rsum_nil; lra|].
      apply Forall_cons in Hw as [Hb Hw]. rewrite Rsum_cons.
      specialize (IH Hw). lra. }
    apply elem_of_cons in Hin as [->|Hin]; [lra|].
    specialize (IH Hw Hin). lra.
Qed.

Lemma vdot_vsub_sym (a : rvec) :
  ∀ b, vdot (vsub a b) (vsub a b) = vdot (vsub b a) (vsub b a).
Proof.
  unfold vdot, vsub, Rsum.
  induction a as [|v a IH]; intros [|v' b]; simpl; try done.
  rewrite (IH b). lra.
Qed.

Lemma node_distance_sym (X : rmat) (i j : nat) :
  node_distance X i j = node_distance X j i.
Proof. unfold node_distance, distance. by rewrite vdot_vsub_sym. Qed.

(** The filtered value at a node with coordinates, spelled out. *)
Lemma filtered_within (X : rmat) (r0 : R) (n : Z) (result : list (list nat))
    (Fm : spmatrix) (x : rvec) (lo hi : R) (i : nat) :
  (0 < r0)%R → ball_query_ok X r0 result →
  filter_loop X r0 (lil_matrix n n) 0 result = Ret Fm →
  length x = Z.to_nat n → Forall (λ v, (lo <= v <= hi)%R) x →
  i < length X →
  ∃ rho_i, sp_mul Fm x !! i = Some rho_i ∧ (lo <= rho_i <= hi)%R.
Proof.
  intros Hr Hok Hloop Hx Hbox Hi.
  pose proof (filter_loop_length _ _ _ _ _ (proj1 Hok) Hloop) as Hn.
  destruct (filter_matrix_entries _ _ _ _ _ Hok Hloop i Hi)
    as (row & Hrow & Hentries & Hsum).
  assert (Hone : row_sum row = 1%R).
  { rewrite Hsum. apply Rsum_normalize. fold (raw_total X r0 i).
    pose proof (raw_total_pos X r0 i Hr Hi). lra. }
  exists (row_dot row x). split.
  - unfold sp_mul. by rewrite list_lookup_fmap, Hrow.
  - pose proof (row_dot_bounds x lo hi row) as Hb. rewrite Hone in Hb.
    rewrite !Rmult_1_r in Hb. apply Hb. intros j v. rewrite Hentries.
    destruct (decide _) as [[Hj Hd]|]; [|done]. intros [= <-].
    pose proof (raw_weight_pos X r0 i j Hd).
    pose proof (raw_total_pos X r0 i Hr Hi). split.
    + apply Rlt_le. by apply Rdiv_lt_0_compat.
    + destruct (lookup_lt_is_Some_2 x j) as [xj Hxj]; [lia|].
      exists xj. split; [done|].
      rewrite Forall_lookup in Hbox. exact (Hbox j xj Hxj).
Qed.

Section FilterFacts.
Context `{PS : PlaneStress} `{SP : SciPy}.

(** X5: for a positive radius the filter averages: if every design value
    lies in [[lo, hi]], so does the filtered density at every node with
    coordinates.  In particular the box [[1e-3, 1]] of the design
    variables is kept by the filter. *)
Theorem filter_keeps_bounds (cn vs : imat) (xs : rmat) (frc : rvec)
    (r0 q : R) (cm : rmat) (s : Self) (l : list call) :
  (0 < r0)%R →
  ball_query_ok xs r0 (query_ball_tree xs r0) →
  __init__ cn vs xs frc r0 q cm tt [] = (Ret s, tt, l) →
  ∀ (x : rvec) (lo hi : R),
    length x = Z.to_nat (nnodes s) →
    Forall (λ v, (lo <= v <= hi)%R) x →
    ∀ i, i < length xs →
      ∃ rho_i, sp_mul (F s) x !! i = Some rho_i ∧ (lo <= rho_i <= hi)%R.
Proof.
  intros Hr Hok Hinit x lo hi Hx Hbox i Hi.
  apply init_iff in Hinit as (pat & l1 & rho & Fm & _ & _ & Hloop & -> & ->).
  simpl in *. by eapply filtered_within.
Qed.


(** X7: once the constructor has returned, for nodes [i], [j] with
    coordinates the entry [F[i,j]] lies in [[0, 1]], it is non-zero
    exactly when the two nodes are closer than [r0], and therefore
    [F[i,j]] and [F[j,i]] are non-zero together (although, being
    normalised by row, they need not be equal). *)
Theorem filter_pattern_symmetric (cn vs : imat) (xs : rmat) (frc : rvec)
    (r0 q : R) (cm : rmat) (s : Self) (l : list call) :
  ball_query_ok xs r0 (query_ball_tree xs r0) →
  __init__ cn vs xs frc r0 q cm tt [] = (Ret s, tt, l) →
  ∀ i j, i < length xs → j < length xs →
    (0 <= sp_get (F s) i j <= 1)%R ∧
    (sp_get (F s) i j ≠ 0%R ↔ (node_distance xs i j < r0)%R) ∧
    (sp_get (F s) i j ≠ 0%R ↔ sp_get (F s) j i ≠ 0%R).
Proof.
  intros Hok Hinit.
  apply init_iff in Hinit as (pat & l1 & rho & Fm & _ & _ & Hloop & -> & ->).
  simpl.
  assert (Hentry : ∀ i j, i < length xs → j < length xs →
    (0 <= sp_get Fm i j <= 1)%R ∧
    (sp_get Fm i j ≠ 0%R ↔ (node_distance xs i j < r0)%R)).
  { intros i j Hi Hj.
    destruct (filter_matrix_entries _ _ _ _ _ Hok Hloop i Hi)
      as (row & Hrow & Hentries & _).
    rewrite (sp_get_row _ _ _ _ Hrow), Hentries.
    destruct (decide _) as [[_ Hd]|Hno]; simpl.
    - pose proof (node_distance_nonneg xs i j) as Hd0.
      assert (Hr : (0 < r0)%R) by lra.
      pose proof (raw_total_pos xs r0 i Hr Hi) as Htot.
      pose proof (raw_weight_pos xs r0 i j Hd) as Hraw.
      assert (Hle : (raw_weight xs r0 i j <= raw_total xs r0 i)%R).
      { unfold raw_total. apply Rsum_ge_elem.
        - rewrite Forall_fmap, Forall_forall. intros k Hk. simpl.
          apply Rlt_le, raw_weight_pos. unfold neighbours in Hk.
          by apply list_elem_of_filter in Hk as [Hk _].
        - apply list_elem_of_fmap. exists j. split; [done|]. unfold neighbours.
          apply list_elem_of_filter. split; [done|]. apply elem_of_seq. lia. }
      assert (Hq : (0 < raw_weight xs r0 i j / raw_total xs r0 i)%R)
        by (by apply Rdiv_lt_0_compat).
      split; [split; [lra|]|].
      + apply (Rmult_le_reg_r (raw_total xs r0 i)); [done|].
        unfold Rdiv. rewrite Rmult_assoc, Rinv_l by lra. lra.
      + split; [done|]. intros _. lra.
    - split; [lra|]. split; [done|]. intros Hd. exfalso. by apply Hno. }
  intros i j Hi Hj. destruct (Hentry i j Hi Hj) as [Hbox Hij].
  destruct (Hentry j i Hj Hi) as [_ Hji].
  split; [done|]. split; [done|].
  rewrite Hij, Hji, (node_distance_sym xs i j). done.
Qed.

End FilterFacts.

(** ** Further properties: how the constructor fails *)

(** With candidate lists that hold valid point indices, the only way the
    filter loop can fail is an index outside the matrix. *)
Lemma filter_loop_only_IndexError (X : rmat) (r0 : R) (result : list (list nat)) :
  ∀ (A : spmatrix) (i0 : nat) (e : exn),
    i0 + length result ≤ length X →
    (∀ k rlist j, result !! k = Some rlist → j ∈ rlist → j < length X) →
    filter_loop X r0 A i0 result = Raise e → e = IndexError.
Proof.
  induction result as [|rl result IH]; intros A i0 e HX Hvalid Hrun; [done|].
  simpl in HX, Hrun. unfold filter_row in Hrun.
  rewrite filter_weights_spec in Hrun; [|lia|].
  2:{ rewrite Forall_forall. intros j Hj. by apply (Hvalid 0 rl j). }
  simpl in Hrun. unfold sp_setrow in Hrun.
  destruct (decide _); [|by injection Hrun as <-].
  rewrite decide_True in Hrun by (unfold normalize; by rewrite !length_fmap).
  simpl in Hrun. eapply IH; [|..|exact Hrun]; [lia|].
  intros k rlist j Hk. by apply (Hvalid (S k)).
Qed.

Lemma filter_matrix_too_many_rows (X : rmat) (r0 : R) (n : Z)
    (result : list (list nat)) :
  ball_query_valid X result → Z.to_nat n < length X →
  filter_loop X r0 (lil_matrix n n) 0 result = Raise IndexError.
Proof.
  intros Hvalid Hn.
  destruct (filter_loop X r0 (lil_matrix n n) 0 result) as [Fm|e] eqn:Hloop.
  - pose proof (filter_loop_length _ _ _ _ _ Hvalid Hloop). lia.
  - destruct Hvalid as [Hlen Hvalid]. f_equal.
    eapply filter_loop_only_IndexError; [| |exact Hloop]; [simpl; lia|done].
Qed.

Section ConstructorErrors.
Context `{PS : PlaneStress} `{SP : SciPy}.

(** X8: a DOF map or a connectivity without entries makes the
    constructor raise [ValueError] at once, before any external routine
    is called. *)
Theorem init_rejects_empty_arrays (cn vs : imat) (xs : rmat) (frc : rvec)
    (r0 q : R) (cm : rmat) (l0 : list call) :
  concat vs = [] ∨ concat cn = [] →
  __init__ cn vs xs frc r0 q cm tt l0 = (Raise ValueError, tt, l0).
Proof.
  intros Hempty.
  unfold __init__, init_pattern. unfold bind at 1 2. unfold lift at 1, np_max at 1.
  destruct (concat vs) as [|z zs]; [done|].
  destruct Hempty as [|Hcn]; [done|].
  unfold bind at 1. unfold lift at 1, np_max at 1. by rewrite Hcn.
Qed.

(** X9: the number of coordinate rows against the number of nodes
    [nnodes = max(conn) + 1].  Where the constructor returns for one
    coordinate array, it raises [IndexError] for any coordinate array
    with more than [nnodes] rows, and it returns for any with at most
    [nnodes] rows; the nodes without a coordinate row then get an empty
    filter row. *)
Theorem init_coordinate_rows (cn vs : imat) (xs : rmat) (frc : rvec)
    (r0 q : R) (cm : rmat) (s : Self) (l : list call) :
  __init__ cn vs xs frc r0 q cm tt [] = (Ret s, tt, l) →
  ∀ (xs' : rmat) (r0' : R),
    ball_query_valid xs' (query_ball_tree xs' r0') →
    (Z.to_nat (nnodes s) < length xs' →
       (__init__ cn vs xs' frc r0' q cm tt []).1.1 = Raise IndexError) ∧
    (length xs' ≤ Z.to_nat (nnodes s) →
       ∃ s' l', __init__ cn vs xs' frc r0' q cm tt [] = (Ret s', tt, l') ∧
         nnodes s' = nnodes s ∧
         ∀ i j, length xs' ≤ i → sp_get (F s') i j = 0%R).
Proof.
  intros Hinit xs' r0' Hvalid.
  apply init_iff in Hinit as (pat & l1 & rho & Fm & Hpat & Hones & _ & -> & ->).
  simpl. split.
  - intros Hmany.
    pose proof (filter_matrix_too_many_rows xs' r0' pat.1.1.2 _ Hvalid Hmany) as Hloop.
    unfold __init__, init_filter, call_computemass, call_query_ball_tree.
    unfold bind at 1 2 3 4 5 6 7 8. unfold lift, emit, ret.
    by rewrite Hpat, Hones, Hloop.
  - intros Hfew.
    destruct (filter_matrix_spec xs' r0' pat.1.1.2 _ Hvalid Hfew)
      as (Fm' & Hloop & _).
    eexists _, _. split.
    { apply init_iff. exists pat, l1, rho, Fm'. by repeat split. }
    simpl. split; [done|]. intros i j Hi.
    by apply (filter_matrix_outside xs' r0' pat.1.1.2 _ Fm' i j Hvalid Hloop).
Qed.

End ConstructorErrors.

(** ** Further properties: the optimizer-facing methods *)

Section AdapterFacts.
Context `{PS : PlaneStress} `{SP : SciPy}.

(** X10: when [compliance_grad(x)] returns and the output arrays have
    the matching lengths, [evalObjConGradient(x, g, A)] returns the flag
    0, fills [g] with the compliance gradient and row 0 of [A] with the
    negated mass derivative, leaves the other rows of [A] and the object
    as they are, and makes the mass-derivative kernel call after the
    calls of [compliance_grad]. *)
Theorem evalObjConGradient_fills_outputs (x g : rvec) (A0 : rvec) (rest : rmat)
    (s : Self) (l : list call) (dcdx : rvec) (s1 : Self) (l1 : list call) :
  compliance_grad x s l = (Ret dcdx, s1, l1) →
  length dcdx = length g →
  length (computemassderiv (T (conn s)) (T (X s)) (zeros_like x)) = length A0 →
  evalObjConGradient x g (A0 :: rest) s l =
    (Ret (0%Z, dcdx,
          (Ropp <$> computemassderiv (T (conn s)) (T (X s)) (zeros_like x)) :: rest),
     s, l1 ++ [Call_computemassderiv (T (conn s)) (T (X s)) (zeros_like x)]).
Proof.
  intros Hgrad Hg HA.
  assert (s1 = s) as ->.
  { rewrite compliance_grad_run in Hgrad.
    destruct (sp_dot (F s) x); [|by injection Hgrad].
    destruct (u s); by injection Hgrad. }
  rewrite evalObjConGradient_run, Hgrad. unfold assign_all.
  rewrite decide_True by done. cbn zeta. simpl.
  rewrite decide_True by (by rewrite length_fmap). done.
Qed.

(** X11: the failures of [evalObjConGradient] once [compliance_grad(x)]
    has returned a gradient of more than one entry: a [g] of another
    length raises [ValueError] before the mass-derivative kernel is
    called; with a fitting [g], a constraint Jacobian [A] without rows
    raises [IndexError] after that kernel call.  The object is unchanged
    in both cases. *)
Theorem evalObjConGradient_output_errors (x g : rvec) (A : rmat)
    (s : Self) (l : list call) (dcdx : rvec) (s1 : Self) (l1 : list call) :
  compliance_grad x s l = (Ret dcdx, s1, l1) →
  1 < length dcdx →
  (length dcdx ≠ length g →
     evalObjConGradient x g A s l = (Raise ValueError, s1, l1)) ∧
  (length dcdx = length g → A = [] →
     evalObjConGradient x g A s l =
       (Raise IndexError, s1,
        l1 ++ [Call_computemassderiv (T (conn s1)) (T (X s1)) (zeros_like x)])).
Proof.
  intros Hgrad Hlen. rewrite evalObjConGradient_run, Hgrad. unfold assign_all.
  split.
  - intros Hne. rewrite decide_False by done.
    destruct dcdx as [|a [|b dcdx]]; simpl in Hlen; [lia|lia|done].
  - intros Heq ->. by rewrite decide_True.
Qed.

(** X12: [getVarsAndBounds] overwrites all three arrays, whatever they
    held, keeps their lengths and touches neither the object nor any
    external routine; the starting design is 0.95 everywhere and lies
    strictly between the lower bound 0.001, which is positive, and the
    upper bound 1. *)
Theorem getVarsAndBounds_start_is_feasible (x lb ub : rvec) (s : Self)
    (l : list call) :
  ∃ x' lb' ub',
    getVarsAndBounds x lb ub s l = (Ret (x', lb', ub'), s, l) ∧
    length x' = length x ∧ length lb' = length lb ∧ length ub' = length ub ∧
    Forall (λ v, v = 0.95%R) x' ∧
    Forall (λ v, v = 0.001%R) lb' ∧
    Forall (λ v, v = 1%R) ub' ∧
    ∀ i xi li ui,
      x' !! i = Some xi → lb' !! i = Some li → ub' !! i = Some ui →
      (0 < li < xi)%R ∧ (xi < ui)%R.
Proof.
  eexists _, _, _. split; [reflexivity|].
  rewrite !length_replicate.
  split; [done|]. split; [done|]. split; [done|].
  split; [by apply Forall_replicate|].
  split; [apply Forall_replicate; lra|].
  split; [apply Forall_replicate; lra|].
  intros i xi li ui Hxi Hli Hui.
  apply lookup_replicate in Hxi as [-> _].
  apply lookup_replicate in Hli as [-> _].
  apply lookup_replicate in Hui as [-> _]. lra.
Qed.

(** X13: the mass and its derivative do not depend on the history of the
    object: after any sequence of method calls [mass(x)] and
    [mass_grad(x)] return what they return right after construction. *)
Theorem mass_is_history_independent (ms : list method) (x : rvec) (s : Self)
    (l l' l'' : list call) :
  (mass x (run ms (s, l)).1 l').1.1 = (mass x s l'').1.1 ∧
  (mass_grad x (run ms (s, l)).1 l').1.1 = (mass_grad x s l'').1.1.
Proof.
  destruct (run_frame ms s l) as [Hsetup _]. unfold same_setup in Hsetup.
  destruct Hsetup as (Hconn & _ & HX & _).
  rewrite !mass_run, !mass_grad_run. simpl. by rewrite Hconn, HX.
Qed.

(** X14: [compliance] reads the setup and the buffer [Kvals], never the
    cached matrix, solve closure or displacement: on two objects that
    agree on the setup and on [Kvals] it ends the same way with the same
    calls, and when it returns it leaves the same object. *)
Theorem compliance_ignores_cache (x : rvec) (s s' : Self) (l : list call) :
  same_setup s s' → Kvals s' = Kvals s →
  (compliance x s' l).1.1 = (compliance x s l).1.1 ∧
  (compliance x s' l).2 = (compliance x s l).2 ∧
  ∀ c s1 l1, compliance x s l = (Ret c, s1, l1) →
    compliance x s' l = (Ret c, s1, l1).
Proof.
  intros Hsetup HK. unfold same_setup in Hsetup.
  destruct Hsetup as (Hc & Hv & HX & Hf & Hq & HC & Hnv & Hnn & Hrp & Hcl & Htm & HF).
  rewrite !compliance_run, HF.
  assert (HKv : ∀ rho, assembled_Kvals s' rho = assembled_Kvals s rho).
  { intros rho. unfold assembled_Kvals. by rewrite Hc, Hv, HX, Hq, HC, Hrp, Hcl, HK. }
  assert (HKm : ∀ rho, assembled_K s' rho = assembled_K s rho).
  { intros rho. unfold assembled_K. by rewrite HKv, Hcl, Hrp, Hnv. }
  assert (Hcall : ∀ rho, Call_assembly s' rho = Call_assembly s rho).
  { intros rho. unfold Call_assembly. by rewrite Hc, Hv, HX, Hq, HC, Hrp, Hcl, HK. }
  destruct (sp_dot (F s) x) as [rho|e] eqn:Hdot; cbn zeta; [|done].
  rewrite HKm, HKv, Hcall, Hf.
  destruct (factorized (assembled_K s rho)) as [lu|]; simpl; [|done].
  split; [done|]. split; [done|]. intros c s1 l1 [= Hdotp <- <-].
  rewrite Hdotp. f_equal. f_equal.
  destruct s, s'; simpl in *; by subst.
Qed.

(** X15: one optimizer iteration.  When [evalObjCon(x)] has returned,
    its objective is the work of the load on the displacement it solved
    for, and [evalObjConGradient(x, g, A)] called next, with output
    arrays of the matching lengths, returns the flag 0, the gradient
    [−Fᵀ·dK] computed by the derivative kernel from that displacement
    and the density [F·x], and the negated mass derivative in row 0 of
    [A], without touching the solver or the object. *)
Theorem objective_then_gradient (x g A0 : rvec) (rest : rmat) (s : Self)
    (l : list call) (r : Z * R * rvec) (s1 : Self) (l1 : list call) :
  evalObjCon x s l = (Ret r, s1, l1) →
  ∃ lu, factorized (assembled_K s (sp_mul (F s) x)) = Some lu ∧
    let disp := lu (force s) in
    let rho := sp_mul (F s) x in
    let dK := computekmatderiv (T (conn s)) (T (vars s)) (T (X s)) (qval s)
                (T (C s)) rho disp disp (zeros_like x) in
    let dmdx := computemassderiv (T (conn s)) (T (X s)) (zeros_like x) in
    r.1.2 = vdot (force s) disp ∧
    (length dK = (sp_shape (F s)).1 → length g = length x →
     length dmdx = length A0 →
     evalObjConGradient x g (A0 :: rest) s1 l1 =
       (Ret (0%Z, Ropp <$> sp_mul (sp_transpose (F s)) dK, (Ropp <$> dmdx) :: rest),
        s1,
        l1 ++ [Call_computekmatderiv (T (conn s)) (T (vars s)) (T (X s)) (qval s)
                 (T (C s)) rho disp disp (zeros_like x);
               Call_computemassderiv (T (conn s)) (T (X s)) (zeros_like x)])).
Proof.
  rewrite evalObjCon_run, compliance_run. unfold sp_dot.
  destruct (decide _) as [Hx|]; [|done]. cbn zeta.
  destruct (factorized _) as [lu|] eqn:Hlu; [|done].
  unfold np_dot. destruct (decide _) as [Hf|]; [|done].
  intros [= <- <- <-]. exists lu. split; [done|]. simpl. split; [done|].
  intros HdK Hg Hdm.
  rewrite evalObjConGradient_run, compliance_grad_run. simpl.
  rewrite (sp_dot_ok (F s) x) by done. unfold kernel_dKdrho, Call_derivative.
  simpl. rewrite sp_dot_ok by done. simpl. unfold assign_all.
  rewrite decide_True.
  2:{ unfold sp_mul, sp_transpose. simpl.
      rewrite !length_fmap, length_seq. congruence. }
  cbn zeta. simpl. rewrite decide_True by (by rewrite length_fmap).
  simpl. by rewrite <- app_assoc.
Qed.


End AdapterFacts.

(** ** The further properties on the example mesh *)

Lemma ex_grad_returns :
  ∃ dcdx,
    compliance_grad (PS := diag_plane_stress) ex_x0 ex_solved [] =
      (Ret dcdx, ex_solved,
       [Call_derivative ex_solved ex_x0 (ex_lu ex_force) ex_x0]) ∧
    length dcdx = 4.
Proof.
  rewrite compliance_grad_run.
  change (F ex_solved) with (F ex_self). unfold ex_x0 at 1.
  rewrite ex_self_filtered. fold ex_x0.
  change (u ex_solved) with (Some (ex_lu ex_force)). cbn beta iota.
  rewrite sp_dot_ok.
  - eexists. split; [reflexivity|].
    unfold sp_mul. by rewrite !length_fmap.
  - unfold kernel_dKdrho. simpl. done.
Qed.

Lemma grad_before_compliance_raises_witness :
  ∃ s l, ex_init 1 = (Ret s, tt, l) ∧
    compliance_grad (PS := diag_plane_stress) ex_x0 s [] =
      (Raise AttributeError, s, []) ∧
    compliance_grad (PS := diag_plane_stress) [0.5; 0.5]%R s [] =
      (Raise ValueError, s, []).
Proof.
  destruct (ex_init_returns 1) as (Fm & _ & Hinit).
  eexists _, _. split; [exact Hinit|].
  pose proof (grad_before_compliance_raises
                (PS := diag_plane_stress) (SP := brute_scipy)
                _ _ _ _ _ _ _ _ _ Hinit) as Hraise.
  split; [exact (Hraise ex_x0 [])|exact (Hraise [0.5; 0.5]%R [])].
Defined.

Lemma failed_compliance_keeps_old_solution_witness :
  sp_dot (F ex_solved) [0; 0; 0; 0]%R = Ret [0; 0; 0; 0]%R ∧
  factorized (SciPy := brute_scipy)
    (assembled_K (PS := diag_plane_stress) ex_solved [0; 0; 0; 0]%R) = None ∧
  let s' := (compliance (PS := diag_plane_stress) (SP := brute_scipy)
               [0; 0; 0; 0]%R ex_solved []).1.2 in
  u s' = Some (ex_lu ex_force) ∧
  Kvals s' = assembled_Kvals (PS := diag_plane_stress) ex_solved [0; 0; 0; 0]%R.
Proof.
  assert (Hdot : sp_dot (F ex_solved) [0; 0; 0; 0]%R = Ret [0; 0; 0; 0]%R)
    by apply ex_self_filtered.
  assert (Hsing : factorized (SciPy := brute_scipy)
            (assembled_K (PS := diag_plane_stress) ex_solved [0; 0; 0; 0]%R) = None).
  { simpl. unfold diag_factorized. simpl.
    destruct (decide _) as [_|Hnin]; [done|].
    exfalso. apply Hnin. apply elem_of_cons. by left. }
  split; [exact Hdot|]. split; [exact Hsing|].
  destruct (failed_compliance_keeps_old_solution
              (PS := diag_plane_stress) (SP := brute_scipy)
              [0; 0; 0; 0]%R ex_solved [] _ Hdot Hsing)
    as (_ & HK & _ & _ & Hu & _).
  split; [exact Hu|exact HK].
Defined.


Lemma filter_keeps_bounds_witness :
  (0 < 3 / 2)%R ∧
  ball_query_ok ex_X (3 / 2) (brute_force_ball ex_X (3 / 2)) ∧
  ∃ s l, ex_init (3 / 2) = (Ret s, tt, l) ∧
    length [0.001; 0.5; 0.7; 1]%R = Z.to_nat (nnodes s) ∧
    Forall (λ v, (0.001 <= v <= 1)%R) [0.001; 0.5; 0.7; 1]%R ∧
    0 < length ex_X ∧
    ∃ rho_0, sp_mul (F s) [0.001; 0.5; 0.7; 1]%R !! 0 = Some rho_0 ∧
      (0.001 <= rho_0 <= 1)%R.
Proof.
  assert (Hr : (0 < 3 / 2)%R) by lra.
  assert (Hbox : Forall (λ v, (0.001 <= v <= 1)%R) [0.001; 0.5; 0.7; 1]%R)
    by (repeat constructor; lra).
  assert (H0 : 0 < length ex_X) by (simpl; lia).
  split; [exact Hr|]. split; [apply brute_force_ball_ok|].
  destruct (ex_init_returns (3 / 2)) as (Fm & _ & Hinit).
  eexists _, _. split; [exact Hinit|]. split; [reflexivity|].
  split; [exact Hbox|]. split; [exact H0|].
  exact (filter_keeps_bounds (PS := diag_plane_stress) (SP := brute_scipy)
           _ _ _ _ _ _ _ _ _ Hr (brute_force_ball_ok ex_X (3 / 2)) Hinit
           [0.001; 0.5; 0.7; 1]%R 0.001%R 1%R eq_refl Hbox 0 H0).
Defined.


Lemma filter_pattern_symmetric_witness :
  ball_query_ok ex_X 1 (brute_force_ball ex_X 1) ∧
  ∃ s l, ex_init 1 = (Ret s, tt, l) ∧
    0 < length ex_X ∧ 1 < length ex_X ∧
    (0 <= sp_get (F s) 0 1 <= 1)%R ∧
    (sp_get (F s) 0 1 ≠ 0%R ↔ sp_get (F s) 1 0 ≠ 0%R).
Proof.
  split; [apply brute_force_ball_ok|].
  destruct (ex_init_returns 1) as (Fm & _ & Hinit).
  eexists _, _. split; [exact Hinit|].
  assert (H0 : 0 < length ex_X) by (simpl; lia).
  assert (H1 : 1 < length ex_X) by (simpl; lia).
  split; [exact H0|]. split; [exact H1|].
  destruct (filter_pattern_symmetric (PS := diag_plane_stress) (SP := brute_scipy)
              _ _ _ _ _ _ _ _ _ (brute_force_ball_ok ex_X 1) Hinit 0 1 H0 H1)
    as (Hbox & _ & Hsym).
  split; [exact Hbox|exact Hsym].
Defined.

Lemma init_rejects_empty_arrays_witness :
  (concat ([] : imat) = [] ∨ concat ex_conn = []) ∧
  __init__ (PS := diag_plane_stress) (SP := brute_scipy)
    ex_conn [] ex_X ex_force 1 3 ex_C tt [] = (Raise ValueError, tt, []).
Proof.
  assert (Hempty : concat ([] : imat) = [] ∨ concat ex_conn = []) by (by left).
  split; [exact Hempty|].
  exact (init_rejects_empty_arrays (PS := diag_plane_stress) (SP := brute_scipy)
           ex_conn [] ex_X ex_force 1 3 ex_C [] Hempty).
Defined.

Lemma init_coordinate_rows_witness :
  ∃ s l, ex_init 1 = (Ret s, tt, l) ∧
    ball_query_valid (ex_X ++ [[2; 2]%R]) (brute_force_ball (ex_X ++ [[2; 2]%R]) 1) ∧
    Z.to_nat (nnodes s) < length (ex_X ++ [[2; 2]%R]) ∧
    (__init__ (PS := diag_plane_stress) (SP := brute_scipy)
       ex_conn ex_vars (ex_X ++ [[2; 2]%R]) ex_force 1 3 ex_C tt []).1.1
      = Raise IndexError ∧
    ball_query_valid [[0; 0]%R] (brute_force_ball [[0; 0]%R] 1) ∧
    length [[0; 0]%R] ≤ Z.to_nat (nnodes s) ∧
    ∃ s' l', __init__ (PS := diag_plane_stress) (SP := brute_scipy)
               ex_conn ex_vars [[0; 0]%R] ex_force 1 3 ex_C tt [] = (Ret s', tt, l') ∧
      sp_get (F s') 1 1 = 0%R.
Proof.
  destruct (ex_init_returns 1) as (Fm & _ & Hinit).
  eexists _, _. split; [exact Hinit|].
  pose proof (init_coordinate_rows (PS := diag_plane_stress) (SP := brute_scipy)
                _ _ _ _ _ _ _ _ _ Hinit) as Hrows.
  assert (Hmany : Z.to_nat 4 < length (ex_X ++ [[2; 2]%R])) by (simpl; lia).
  assert (Hfew : length [[0; 0]%R] ≤ Z.to_nat 4) by (simpl; lia).
  split; [apply brute_force_ball_valid|]. split; [exact Hmany|].
  split.
  { exact (proj1 (Hrows _ 1%R (brute_force_ball_valid _ 1)) Hmany). }
  split; [apply brute_force_ball_valid|]. split; [exact Hfew|].
  destruct (proj2 (Hrows _ 1%R (brute_force_ball_valid [[0; 0]%R] 1)) Hfew)
    as (s' & l' & Hinit' & _ & Hzero).
  exists s', l'. split; [exact Hinit'|]. apply Hzero. simpl. lia.
Defined.

Lemma evalObjConGradient_fills_outputs_witness :
  ∃ dcdx l1,
    compliance_grad (PS := diag_plane_stress) ex_x0 ex_solved [] =
      (Ret dcdx, ex_solved, l1) ∧
    length dcdx = length [0; 0; 0; 0]%R ∧
    evalObjConGradient (PS := diag_plane_stress)
      ex_x0 [0; 0; 0; 0]%R [[7; 7; 7; 7]; [8; 8; 8; 8]]%R ex_solved [] =
      (Ret (0%Z, dcdx, [[-1; -1; -1; -1]; [8; 8; 8; 8]]%R), ex_solved,
       l1 ++ [Call_computemassderiv (T ex_conn) (T ex_X) [0; 0; 0; 0]%R]).
Proof.
  destruct ex_grad_returns as (dcdx & Hgrad & Hlen).
  eexists _, _. split; [exact Hgrad|]. split; [exact Hlen|].
  exact (evalObjConGradient_fills_outputs (PS := diag_plane_stress)
           ex_x0 [0; 0; 0; 0]%R [7; 7; 7; 7]%R [[8; 8; 8; 8]%R] ex_solved []
           dcdx ex_solved _ Hgrad Hlen eq_refl).
Defined.

Lemma evalObjConGradient_output_errors_witness :
  ∃ dcdx l1,
    compliance_grad (PS := diag_plane_stress) ex_x0 ex_solved [] =
      (Ret dcdx, ex_solved, l1) ∧
    1 < length dcdx ∧
    length dcdx ≠ length [0; 0]%R ∧
    evalObjConGradient (PS := diag_plane_stress)
      ex_x0 [0; 0]%R [[7; 7; 7; 7]]%R ex_solved [] =
      (Raise ValueError, ex_solved, l1) ∧
    length dcdx = length [0; 0; 0; 0]%R ∧
    (evalObjConGradient (PS := diag_plane_stress)
       ex_x0 [0; 0; 0; 0]%R [] ex_solved []).1.1 = Raise IndexError.
Proof.
  destruct ex_grad_returns as (dcdx & Hgrad & Hlen).
  assert (H1 : 1 < length dcdx) by lia.
  assert (Hne : length dcdx ≠ length [0; 0]%R) by (simpl; lia).
  eexists _, _. split; [exact Hgrad|]. split; [exact H1|]. split; [exact Hne|].
  split.
  { exact (proj1 (evalObjConGradient_output_errors (PS := diag_plane_stress)
             ex_x0 [0; 0]%R [[7; 7; 7; 7]%R] ex_solved [] dcdx ex_solved _
             Hgrad H1) Hne). }
  split; [exact Hlen|].
  by rewrite (proj2 (evalObjConGradient_output_errors (PS := diag_plane_stress)
             ex_x0 [0; 0; 0; 0]%R [] ex_solved [] dcdx ex_solved _
             Hgrad H1) Hlen eq_refl).
Defined.

Lemma getVarsAndBounds_start_is_feasible_witness :
  ∃ x' lb' ub',
    getVarsAndBounds [0; 0]%R [5; 5]%R [-1; -1]%R ex_self [] =
      (Ret (x', lb', ub'), ex_self, []) ∧
    ∃ xi li ui,
      x' !! 1 = Some xi ∧ lb' !! 1 = Some li ∧ ub' !! 1 = Some ui ∧
      (0 < li < xi)%R ∧ (xi < ui)%R.
Proof.
  destruct (getVarsAndBounds_start_is_feasible [0; 0]%R [5; 5]%R [-1; -1]%R ex_self [])
    as (x' & lb' & ub' & Hrun & _ & _ & _ & _ & _ & _ & Hbox).
  exists x', lb', ub'. split; [exact Hrun|].
  injection Hrun as <- <- <-.
  eexists _, _, _. split; [reflexivity|]. split; [reflexivity|].
  split; [reflexivity|]. by apply (Hbox 1).
Defined.

Lemma compliance_ignores_cache_witness :
  same_setup ex_self ex_solved ∧
  Kvals (set_Kvals (Kvals ex_self) ex_solved) = Kvals ex_self ∧
  (compliance (PS := diag_plane_stress) (SP := brute_scipy) ex_x0
     (set_Kvals (Kvals ex_self) ex_solved) []).1.1 =
  (compliance (PS := diag_plane_stress) (SP := brute_scipy) ex_x0 ex_self []).1.1.
Proof.
  assert (Hsetup : same_setup ex_self (set_Kvals (Kvals ex_self) ex_solved))
    by (by repeat split).
  split; [by repeat split|]. split; [reflexivity|].
  exact (proj1 (compliance_ignores_cache (PS := diag_plane_stress) (SP := brute_scipy)
                  ex_x0 ex_self (set_Kvals (Kvals ex_self) ex_solved) []
                  Hsetup eq_refl)).
Defined.

Lemma objective_then_gradient_witness :
  ∃ r s1 l1 lu g' l2,
    evalObjCon (PS := diag_plane_stress) (SP := brute_scipy) ex_x0 ex_self [] =
      (Ret r, s1, l1) ∧
    r.1.2 = vdot ex_force (lu ex_force) ∧
    evalObjConGradient (PS := diag_plane_stress)
      ex_x0 [0; 0; 0; 0]%R [[7; 7; 7; 7]; [8; 8; 8; 8]]%R s1 l1 =
      (Ret (0%Z, g', [[-1; -1; -1; -1]; [8; 8; 8; 8]]%R), s1, l2).
Proof.
  destruct ex_evalObjCon_returns as (r & s1 & l1 & Hrun).
  destruct (objective_then_gradient (PS := diag_plane_stress) (SP := brute_scipy)
              ex_x0 [0; 0; 0; 0]%R [7; 7; 7; 7]%R [[8; 8; 8; 8]%R]
              ex_self [] r s1 l1 Hrun) as (lu & _ & Hobj & Hgrad).
  exists r, s1, l1, lu. eexists _, _. split; [exact Hrun|]. split; [exact Hobj|].
  apply Hgrad; [|reflexivity|reflexivity].
  simpl. rewrite length_take, length_app. unfold zeros_like.
  rewrite !length_replicate. change (length ex_x0) with 4. lia.
Defined.
